(** * CPA survey visual: a shallow embedding of [scripts/generate_survey_visual.py]

    The script is a linear pipeline: [load_rows] reads the survey export and
    keeps the completed responses, [summarize] tallies one question column,
    [make_svg] lays the tallies out as stacked bars, and [main] wires the three
    together and writes the document.

    Python values are embedded as follows.
    - [str] is a sequence of Unicode code points, [list N].
    - [int] is [Z]; [float] is the kernel's IEEE 754 binary64 ([PrimFloat]).
      The text of an int is given for every int; CPython gives it up to a
      limit of digits, the side condition [within_str_limit].
    - A row of [csv.DictReader] is a finite map from column names to cells; a
      cell is a string, or [None] where the record was shorter than the header
      ([restval]).  The surplus fields of a record longer than the header are
      stored by [DictReader] under the key [None], which no lookup of this
      script uses; they are left out of the map.
    - An exception is a value of [exn], and a computation that may raise
      returns a [result]. *)

From Stdlib Require Import ZArith QArith Qfield Qpower Lia Lqa.
From Stdlib Require Import String Ascii DecimalString.
From Stdlib Require Import PrimFloat FloatOps SpecFloat FloatAxioms.
From stdpp Require Import gmap list sorting.

Local Open Scope Z_scope.

(** ** Strings *)

Abbreviation str := (list N).

(** An ASCII literal of the source as a sequence of code points. *)
Definition lit (s : string) : str := map N_of_ascii (list_ascii_of_string s).
Arguments lit s%_string.

(** [str.isspace] on one code point: the characters [str.strip()] removes. *)
Definition is_space (c : N) : bool :=
  ((9 <=? c) && (c <=? 13) || (28 <=? c) && (c <=? 32)
   || (c =? 133) || (c =? 160) || (c =? 5760)
   || (8192 <=? c) && (c <=? 8202)
   || (c =? 8232) || (c =? 8233) || (c =? 8239) || (c =? 8287)
   || (c =? 12288))%N.

Fixpoint lstrip (s : str) : str :=
  match s with
  | c :: s' => if is_space c then lstrip s' else s
  | [] => []
  end.

Definition rstrip (s : str) : str := rev (lstrip (rev s)).

(** [s.strip()] *)
Definition strip (s : str) : str := rstrip (lstrip s).

(** Truth value of a string: non-empty. *)
Definition str_bool (s : str) : bool :=
  match s with [] => false | _ :: _ => true end.

(** ** Exceptions *)

Inductive exn :=
  | OSError
  | KeyError (k : str)
  | AttributeError
  | ZeroDivisionError
  | OverflowError.

Inductive result (A : Type) :=
  | Ok (a : A)
  | Raise (e : exn).
Arguments Ok {A} a.
Arguments Raise {A} e.

(** Sequencing: the first exception raised ends the computation. *)
Global Instance result_bind : MBind result := λ A B f m,
  match m with
  | Ok a => f a
  | Raise e => Raise e
  end.

Global Instance result_ret : MRet result := λ A a, Ok a.

Global Instance result_fmap : FMap result := λ A B f m,
  match m with
  | Ok a => Ok (f a)
  | Raise e => Raise e
  end.

(** ** Rows *)

Inductive cell :=
  | CNone
  | CStr (s : str).

Global Instance cell_eq_dec : EqDecision cell.
Proof. solve_decision. Defined.

Abbreviation row := (gmap (list N) cell).

(** [r.get(key)]: the cell, [None] when the key is absent. *)
Definition row_get (r : row) (key : str) : cell := default CNone (r !! key).

(** [r[key]]: raises [KeyError] when the key is absent. *)
Definition row_item (r : row) (key : str) : result cell :=
  match r !! key with
  | Some v => Ok v
  | None => Raise (KeyError key)
  end.

(** Truth value of a cell: [None] and the empty string are false. *)
Definition cell_bool (v : cell) : bool :=
  match v with
  | CNone => false
  | CStr s => str_bool s
  end.

(** ** Configuration *)

Definition QUESTIONS : list (str * str) :=
  [ (lit "Q29", lit "Likelihood of pursuing CPA license");
    (lit "Q51", lit "Alternative pathway's impact on CPA desire");
    (lit "Q52", lit "Alternative pathway's impact on graduate degree desire");
    (lit "Q6", lit "Overall perception of CPA pathway change");
    (lit "Q25", lit "Attractiveness of shorter graduate certificate") ].

Definition ORDER_items : list (str * Z) :=
  [ (lit "Very unlikely", 0);
    (lit "Somewhat unlikely", 1);
    (lit "Neither likely nor unlikely", 2);
    (lit "Somewhat likely", 3);
    (lit "Very likely", 4);
    (lit "Significantly decreased desire", 0);
    (lit "Decreased desire", 1);
    (lit "No change in desire", 2);
    (lit "Increased desire", 3);
    (lit "Significantly increased desire", 4);
    (lit "Very Negative", 0);
    (lit "Somewhat Negative", 1);
    (lit "Neutral", 2);
    (lit "Somewhat Positive", 3);
    (lit "Very Positive", 4);
    (lit "Not at all attractive", 0);
    (lit "Somewhat unattractive", 1);
    (lit "Neither attractive nor unattractive", 2);
    (lit "Somewhat attractive", 3);
    (lit "Very attractive", 4) ].

Definition ORDER : gmap (list N) Z := list_to_map ORDER_items.
Global Arguments ORDER : simpl never.

Definition COLOR_SCALE : gmap Z (list N) :=
  list_to_map
    [ (0, lit "#8b1e3f");
      (1, lit "#d8576b");
      (2, lit "#b0b7c3");
      (3, lit "#58a4b0");
      (4, lit "#1d7a8c") ].

(** ** [load_rows] *)

(** The condition of the list comprehension. *)
Definition keep (r : row) : bool :=
  cell_bool (row_get r (lit "ResponseId"))
  && bool_decide (row_get r (lit "StartDate") ≠ CStr (lit "Start Date"))
  && bool_decide (row_get r (lit "Finished") = CStr (lit "True")).

(** [[r for r in rows if ...]] *)
Definition clean (rows : list row) : list row := List.filter keep rows.

(** The file at [path] is given by what [list(csv.DictReader(fh))] makes of
    it: the rows in file order, or the exception that opening, decoding or
    parsing the file raises.  The reader is a function of the file's
    content. *)
Definition load_rows (file : result (list row)) : result (list row) :=
  rows ← file ;
  Ok (clean rows).

(** ** [summarize] *)

(** [r[column].strip()] *)
Definition answer (r : row) (column : str) : result str :=
  v ← row_item r column ;
  match v with
  | CStr s => Ok (strip s)
  | CNone => Raise AttributeError
  end.

(** The generator [r[column].strip() for r in rows if r[column].strip()],
    consumed to its end. *)
Fixpoint answers (rows : list row) (column : str) : result (list str) :=
  match rows with
  | [] => Ok []
  | r :: rest =>
      s ← answer r column ;
      ss ← answers rest column ;
      Ok (if str_bool s then s :: ss else ss)
  end.

(** A [Counter] is a dict: its items are kept in the order in which their keys
    were first inserted. *)
Abbreviation counter := (list (list N * Z)).

(** [c[x] += 1], a missing key counting as 0. *)
Fixpoint counter_incr (c : counter) (x : str) : counter :=
  match c with
  | [] => [(x, 1)]
  | (k, n) :: c' =>
      if decide (k = x) then (k, n + 1) :: c' else (k, n) :: counter_incr c' x
  end.

(** [Counter(iterable)] *)
Definition Counter (it : list str) : counter := fold_left counter_incr it [].

(** The sort key [lambda kv: ORDER.get(kv[0], 999)]. *)
Definition sort_key (kv : str * Z) : Z := default 999 (ORDER !! kv.1).

(** [sorted(items, key=key)]: the sort is stable, so its result is the one of
    a stable insertion sort. *)
Fixpoint insert_by {A} (key : A → Z) (x : A) (l : list A) : list A :=
  match l with
  | [] => [x]
  | y :: l' => if key x <=? key y then x :: l else y :: insert_by key x l'
  end.

Definition sorted {A} (l : list A) (key : A → Z) : list A :=
  foldr (insert_by key) [] l.

(** [sum(counter.values())] *)
Definition sum_values (c : counter) : Z := foldr Z.add 0 (c.*2).

Definition summarize (rows : list row) (column : str)
  : result (counter * Z) :=
  cells ← answers rows column ;
  let counter := Counter cells in
  let ordered := sorted counter sort_key in
  let total := sum_values counter in
  Ok (ordered, total).

(** ** Numbers of the renderer *)

(** A Python number of [make_svg]: an [int] or a [float]. *)
Inductive num :=
  | Int (z : Z)
  | Float (f : float).

(** [float(z)], rounded to nearest even.  (Python raises [OverflowError]
    beyond the largest double; the renderer converts only its layout
    constants and the values 0 and 520 of [seg_w], [pct] and [x].) *)
Definition float_of_int (z : Z) : float :=
  SF2Prim (binary_normalize prec emax z 0 false).

Definition to_float (n : num) : float :=
  match n with
  | Int z => float_of_int z
  | Float f => f
  end.

(** [a / b] on two ints: the quotient correctly rounded to a double;
    [ZeroDivisionError] for a zero divisor, [OverflowError] when the rounded
    quotient is beyond the largest double. *)
Definition true_div (a b : Z) : result float :=
  if decide (b = 0) then Raise ZeroDivisionError
  else if decide (a = 0) then Ok (if b <? 0 then (-0)%float else 0%float)
  else if (2 ^ 1025 - 2 ^ 971) * Z.abs b <=? 2 * Z.abs a
  then Raise OverflowError
  else
    let '(m, e, l) := SFdiv_core_binary prec emax (Z.abs a) 0 (Z.abs b) 0 in
    Ok (SF2Prim (binary_round_aux prec emax (xorb (a <? 0) (b <? 0)) m e l)).

(** [a / b] *)
Definition num_truediv (a b : num) : result num :=
  match a, b with
  | Int x, Int y => Float <$> true_div x y
  | _, _ =>
      if PrimFloat.eqb (to_float b) 0 then Raise ZeroDivisionError
      else Ok (Float (PrimFloat.div (to_float a) (to_float b)))
  end.

(** [a * b] *)
Definition num_mul (a b : num) : num :=
  match a, b with
  | Int x, Int y => Int (x * y)
  | _, _ => Float (PrimFloat.mul (to_float a) (to_float b))
  end.

(** [a + b] *)
Definition num_add (a b : num) : num :=
  match a, b with
  | Int x, Int y => Int (x + y)
  | _, _ => Float (PrimFloat.add (to_float a) (to_float b))
  end.

(** [a > b].  (Python compares a float with an int exactly; the renderer
    compares with the constants 115 and 1.0 only.) *)
Definition num_gt (a b : num) : bool :=
  match a, b with
  | Int x, Int y => y <? x
  | _, _ => PrimFloat.ltb (to_float b) (to_float a)
  end.

(** [max(a, b)]: the first argument unless the second is greater. *)
Definition py_max (a b : num) : num := if num_gt b a then b else a.

(** ** Formatting *)

(** The decimal digits of a natural number. *)
Definition dec (n : N) : str := lit (NilZero.string_of_uint (N.to_uint n)).

Definition sign_str (negative : bool) : str :=
  if negative then lit "-" else [].

(** The replacement field [{z}] for an int: its decimal digits.  CPython 3.11
    and later convert an int of at most [int_max_str_digits] digits and raise
    [ValueError] for a longer one.  This function gives the digits of every
    int: it is the replacement field on the ints [within_str_limit], and a
    statement on an int that the script does not bound carries that
    condition.  ([main] formats the layout constants, the [y] of a row and
    the number of retained rows.) *)
Definition fmt_int (z : Z) : str := sign_str (z <? 0) ++ dec (Z.abs_N z).

(** [sys.int_max_str_digits], at its default. *)
Definition int_max_str_digits : Z := 4300.

(** The ints that [str] and a replacement field convert. *)
Definition within_str_limit (z : Z) : Prop :=
  Z.abs z < 10 ^ int_max_str_digits.

(** [n / d] rounded to the nearest integer, ties to even ([0 ≤ n], [0 < d]). *)
Definition round_half_even (n d : Z) : Z :=
  let q := n / d in
  match 2 * (n mod d) ?= d with
  | Lt => q
  | Gt => q + 1
  | Eq => if Z.even q then q else q + 1
  end.

(** The format [.1f] of a float: its exact value, correctly rounded to one
    decimal place. *)
Definition float_1f (f : float) : str :=
  match Prim2SF f with
  | S754_zero s => sign_str s ++ lit "0.0"
  | S754_infinity s => sign_str s ++ lit "inf"
  | S754_nan => lit "nan"
  | S754_finite s m e =>
      let tenths :=
        if 0 <=? e then Z.pos m * 2 ^ e * 10
        else round_half_even (Z.pos m * 10) (2 ^ (- e)) in
      sign_str s ++ dec (Z.to_N (tenths / 10)) ++ lit "."
        ++ dec (Z.to_N (tenths mod 10))
  end.

(** The replacement field [{n:.1f}]; an int is converted to a float first. *)
Definition fmt_1f (n : num) : str := float_1f (to_float n).

(** The line feed of ["\n".join(parts)]. *)
Definition newline : str := [10%N].

(** A double-quoted attribute value. *)
Definition q (s : str) : str := [34%N] ++ s ++ [34%N].

(** [sep.join(parts)] *)
Fixpoint join (sep : str) (parts : list str) : str :=
  match parts with
  | [] => []
  | [p] => p
  | p :: rest => p ++ sep ++ join sep rest
  end.

(** ** [make_svg] *)

Definition width : Z := 1400.
Definition height : Z := 980.
Definition left_margin : Z := 90.
Definition chart_left : Z := 520.
Definition chart_width : Z := 780.
Definition top_margin : Z := 170.
Definition row_gap : Z := 140.
Definition bar_height : Z := 46.

Definition font_family : str :=
  lit " font-family=" ++ q (lit "Segoe UI, Arial, sans-serif").

(** The initial value of [parts]. *)
Definition header (n_finished : Z) : list str :=
  [ lit "<svg xmlns=" ++ q (lit "http://www.w3.org/2000/svg")
      ++ lit " width=" ++ q (fmt_int width) ++ lit " height="
      ++ q (fmt_int height) ++ lit " viewBox="
      ++ q (lit "0 0 " ++ fmt_int width ++ lit " " ++ fmt_int height)
      ++ lit ">";
    lit "<defs>";
    lit "  <linearGradient id=" ++ q (lit "bg") ++ lit " x1=" ++ q (lit "0")
      ++ lit " y1=" ++ q (lit "0") ++ lit " x2=" ++ q (lit "1") ++ lit " y2="
      ++ q (lit "1") ++ lit ">";
    lit "    <stop offset=" ++ q (lit "0%") ++ lit " stop-color="
      ++ q (lit "#f7f9fc") ++ lit "/>";
    lit "    <stop offset=" ++ q (lit "100%") ++ lit " stop-color="
      ++ q (lit "#edf1f8") ++ lit "/>";
    lit "  </linearGradient>";
    lit "  <filter id=" ++ q (lit "cardShadow") ++ lit " x="
      ++ q (lit "-10%") ++ lit " y=" ++ q (lit "-10%") ++ lit " width="
      ++ q (lit "130%") ++ lit " height=" ++ q (lit "130%") ++ lit ">";
    lit "    <feDropShadow dx=" ++ q (lit "0") ++ lit " dy=" ++ q (lit "4")
      ++ lit " stdDeviation=" ++ q (lit "6") ++ lit " flood-color="
      ++ q (lit "#8fa2c0") ++ lit " flood-opacity=" ++ q (lit "0.2")
      ++ lit "/>";
    lit "  </filter>";
    lit "</defs>";
    lit "<rect x=" ++ q (lit "0") ++ lit " y=" ++ q (lit "0")
      ++ lit " width=" ++ q (lit "1400") ++ lit " height=" ++ q (lit "980")
      ++ lit " fill=" ++ q (lit "url(#bg)") ++ lit "/>";
    lit "<text x=" ++ q (lit "90") ++ lit " y=" ++ q (lit "72")
      ++ lit " font-size=" ++ q (lit "44") ++ font_family
      ++ lit " font-weight=" ++ q (lit "700") ++ lit " fill="
      ++ q (lit "#1d2d44") ++ lit ">CPA Pathway Survey: Key Findings</text>";
    lit "<text x=" ++ q (lit "90") ++ lit " y=" ++ q (lit "110")
      ++ lit " font-size=" ++ q (lit "22") ++ font_family ++ lit " fill="
      ++ q (lit "#334e68")
      ++ lit ">Distribution of responses across five high-impact decision questions</text>";
    lit "<text x=" ++ q (lit "90") ++ lit " y=" ++ q (lit "140")
      ++ lit " font-size=" ++ q (lit "18") ++ font_family ++ lit " fill="
      ++ q (lit "#486581") ++ lit ">n = " ++ fmt_int n_finished
      ++ lit " completed responses</text>" ].

(** The card behind a question row. *)
Definition card_rect (y : Z) : str :=
  lit "<rect x=" ++ q (lit "70") ++ lit " y=" ++ q (fmt_int (y - 44))
    ++ lit " width=" ++ q (lit "1260") ++ lit " height=" ++ q (lit "92")
    ++ lit " rx=" ++ q (lit "16") ++ lit " fill=" ++ q (lit "#ffffff")
    ++ lit " filter=" ++ q (lit "url(#cardShadow)") ++ lit "/>".

(** The question's display label. *)
Definition row_label (y : Z) (label : str) : str :=
  lit "<text x=" ++ q (fmt_int left_margin) ++ lit " y="
    ++ q (fmt_int (y - 8)) ++ lit " font-size=" ++ q (lit "22")
    ++ font_family ++ lit " font-weight=" ++ q (lit "600") ++ lit " fill="
    ++ q (lit "#102a43") ++ lit ">" ++ label ++ lit "</text>".

(** One bar segment: a rectangle at [x] of width [seg_w]. *)
Definition bar_rect (x : num) (y : Z) (seg_w : num) (color : str) : str :=
  lit "<rect x=" ++ q (fmt_1f x) ++ lit " y=" ++ q (fmt_int y)
    ++ lit " width=" ++ q (fmt_1f seg_w) ++ lit " height="
    ++ q (fmt_int bar_height) ++ lit " fill=" ++ q color ++ lit "/>".

(** The answer text, anchored at its middle on [cx]. *)
Definition label_inside_text (cx : num) (y : Z) (text : str) : str :=
  lit "<text x=" ++ q (fmt_1f cx) ++ lit " y="
    ++ q (fmt_int (y + 21)) ++ lit " text-anchor=" ++ q (lit "middle")
    ++ lit " font-size=" ++ q (lit "13") ++ font_family ++ lit " fill="
    ++ q (lit "#ffffff") ++ lit " font-weight=" ++ q (lit "600") ++ lit ">"
    ++ text ++ lit "</text>".

(** The percentage, anchored at its middle on [cx]. *)
Definition label_inside_pct (cx : num) (y : Z) (pct : num) : str :=
  lit "<text x=" ++ q (fmt_1f cx) ++ lit " y="
    ++ q (fmt_int (y + 39)) ++ lit " text-anchor=" ++ q (lit "middle")
    ++ lit " font-size=" ++ q (lit "15") ++ font_family ++ lit " fill="
    ++ q (lit "#ffffff") ++ lit " font-weight=" ++ q (lit "700") ++ lit ">"
    ++ fmt_1f pct ++ lit "%</text>".

(** The percentage, starting at [lx]. *)
Definition label_outside_pct (lx : num) (y : Z) (pct : num) : str :=
  lit "<text x=" ++ q (fmt_1f lx)
    ++ lit " y=" ++ q (fmt_int (y + 28)) ++ lit " font-size="
    ++ q (lit "13") ++ font_family ++ lit " fill="
    ++ q (lit "#334e68") ++ lit ">" ++ fmt_1f pct ++ lit "%</text>".

Definition footer : list str :=
  [ lit "<text x=" ++ q (lit "90") ++ lit " y=" ++ q (lit "940")
      ++ lit " font-size=" ++ q (lit "14") ++ font_family ++ lit " fill="
      ++ q (lit "#627d98")
      ++ lit ">Source: Alternative CPA Pathways Survey (cleaned to completed responses only).</text>";
    lit "</svg>" ].

(** [(count / total) * 100 if total else 0] *)
Definition segment_pct (count total : Z) : result num :=
  if decide (total = 0) then Ok (Int 0)
  else
    share ← num_truediv (Int count) (Int total) ;
    Ok (num_mul share (Int 100)).

(** [chart_width * (count / total)] *)
Definition proportional_width (count total : Z) : result num :=
  share ← num_truediv (Int count) (Int total) ;
  Ok (num_mul (Int chart_width) share).

(** [max(1.0, chart_width * (count / total)) if total else 0] *)
Definition segment_width (count total : Z) : result num :=
  if decide (total = 0) then Ok (Int 0)
  else
    w ← proportional_width count total ;
    Ok (py_max (Float 1) w).

(** The fill of a segment: [COLOR_SCALE.get(ORDER.get(text, 2), "#6b778d")]. *)
Definition segment_color (text : str) : str :=
  let tone := default 2 (ORDER !! text) in
  default (lit "#6b778d") (COLOR_SCALE !! tone).

(** The labels of a segment: [if seg_w > 115: ... else: ...]. *)
Definition segment_labels (x : num) (y : Z) (seg_w pct : num) (text : str)
  : result (list str) :=
  if num_gt seg_w (Int 115) then
    half ← num_truediv seg_w (Int 2) ;
    Ok [ label_inside_text (num_add x half) y text;
         label_inside_pct (num_add x half) y pct ]
  else
    Ok [ label_outside_pct (num_add (num_add x seg_w) (Int 6)) y pct ].

(** A loop: the body threads the state through the items, and the first
    exception ends it. *)
Fixpoint for_each {A S} (body : S → A → result S) (items : list A) (s : S)
  : result S :=
  match items with
  | [] => Ok s
  | a :: rest => s' ← body s a ; for_each body rest s'
  end.

(** The body of [for text, count in entries]; the state is [(parts, x)]. *)
Definition segment (y total : Z) (st : list str * num) (entry : str * Z)
  : result (list str * num) :=
  let '(parts, x) := st in
  let '(text, count) := entry in
  pct ← segment_pct count total ;
  seg_w ← segment_width count total ;
  let color := segment_color text in
  let parts := parts ++ [bar_rect x y seg_w color] in
  labels ← segment_labels x y seg_w pct text ;
  Ok (parts ++ labels, num_add x seg_w).

(** [enumerate(items)] *)
Definition enumerate {A} (items : list A) : list (Z * A) :=
  imap (λ i a, (Z.of_nat i, a)) items.

(** The body of [for i, (label, entries, total) in enumerate(results)]; the
    state is [parts]. *)
Definition question_row (parts : list str)
    (item : Z * (str * counter * Z)) : result (list str) :=
  let '(i, (label, entries, total)) := item in
  let y := top_margin + i * row_gap in
  let parts := parts ++ [card_rect y] in
  let parts := parts ++ [row_label y label] in
  let x := Int chart_left in
  '(parts, _) ← for_each (segment y total) entries (parts, x) ;
  Ok parts.

Definition make_svg (results : list (str * counter * Z)) (n_finished : Z)
  : result str :=
  let parts := header n_finished in
  parts ← for_each question_row (enumerate results) parts ;
  let parts := parts ++ footer in
  Ok (join newline parts).

(** ** [main] *)

(** What the script sees of the outside: the input file at [CSV_PATH] (as
    [load_rows] takes it), the output path as a string, whether it can be
    written, the output file, given by the text written to it, and the lines
    printed. *)
Record world := World {
  csv_file : result (list row);
  OUTPUT_PATH : str;
  output_writable : bool;
  svg_file : option str;
  stdout : list str;
}.

(** [OUTPUT_PATH.write_text(svg, encoding="utf-8")]: the file is replaced by
    the text.  (Its bytes are the UTF-8 encoding of the text, a function of
    the text; text decoded from a file holds no surrogate, so the encoding
    does not fail.) *)
Definition write_text (w : world) (text : str) : result world :=
  if output_writable w then
    Ok {| csv_file := csv_file w; OUTPUT_PATH := OUTPUT_PATH w;
          output_writable := true; svg_file := Some text;
          stdout := stdout w |}
  else Raise OSError.

(** [print(line)] *)
Definition print (w : world) (line : str) : world :=
  {| csv_file := csv_file w; OUTPUT_PATH := OUTPUT_PATH w;
     output_writable := output_writable w; svg_file := svg_file w;
     stdout := stdout w ++ [line] |}.

(** The loop [for col, label in QUESTIONS] of [main]. *)
Definition question_results (rows : list row)
  : result (list (str * counter * Z)) :=
  mapM (λ '(col, label),
          '(entries, total) ← summarize rows col ;
          Ok (label, entries, total))
       QUESTIONS.

Definition main (w : world) : result world :=
  rows ← load_rows (csv_file w) ;
  results ← question_results rows ;
  svg ← make_svg results (Z.of_nat (length rows)) ;
  w ← write_text w svg ;
  Ok (print w (lit "Wrote " ++ OUTPUT_PATH w)).

(** * The vocabulary of the specification *)

(** ** The loader's filtering rule *)

(** The row holds a non-empty string under [key]. *)
Definition nonempty_text (key : str) (r : row) : Prop :=
  ∃ s, r !! key = Some (CStr s) ∧ s ≠ [].

Global Instance nonempty_text_dec (key : str) (r : row) :
  Decision (nonempty_text key r).
Proof.
  unfold nonempty_text. destruct (r !! key) as [[|s]|].
  - right. by intros (s & [=] & _).
  - destruct (decide (s = [])) as [He | He].
    + right. by intros (s' & [= <-] & ?).
    + left. eauto.
  - right. by intros (s & [=] & _).
Defined.

(** A retained row: a non-empty identifier, not the repeated header, and
    finished. *)
Definition retained (r : row) : Prop :=
  nonempty_text (lit "ResponseId") r
  ∧ r !! lit "StartDate" ≠ Some (CStr (lit "Start Date"))
  ∧ r !! lit "Finished" = Some (CStr (lit "True")).

Global Instance retained_dec (r : row) : Decision (retained r).
Proof. unfold retained. apply _. Defined.

(** ** The answers of a column *)

(** The row holds a string under [column]. *)
Definition has_text (column : str) (r : row) : Prop :=
  ∃ s, r !! column = Some (CStr s).

(** The row answers [column]: its value there is non-empty after trimming. *)
Definition answered (column : str) (r : row) : Prop :=
  ∃ s, r !! column = Some (CStr s) ∧ strip s ≠ [].

Global Instance answered_dec (column : str) (r : row) :
  Decision (answered column r).
Proof.
  unfold answered. destruct (r !! column) as [[|s]|].
  - right. by intros (s & [=] & _).
  - destruct (decide (strip s = [])) as [He | He].
    + right. by intros (s' & [= <-] & ?).
    + left. eauto.
  - right. by intros (s & [=] & _).
Defined.

(** The answer [a] occurs among the responses of [rows] to [column]. *)
Definition occurs (column : str) (a : str) (rows : list row) : Prop :=
  a ≠ [] ∧ ∃ r, r ∈ rows ∧ answer r column = Ok a.

(** ** Order of appearance in a list *)

(** [a] stands at a position strictly before a position of [b]. *)
Definition precedes {A} (a b : A) (l : list A) : Prop :=
  ∃ i j, (i < j)%nat ∧ l !! i = Some a ∧ l !! j = Some b.

(** ** Exact arithmetic *)

(** The rational number a double stands for (0 for an infinity or a NaN). *)
Definition float_exact (f : float) : Q :=
  match Prim2SF f with
  | S754_finite s m e =>
      ((if s then -1 else 1) * inject_Z (Z.pos m) * 2 ^ e)%Q
  | _ => 0%Q
  end.

(** The proportional width [chart_width * count / total] as a rational
    number: what [proportional_width] computes in doubles. *)
Definition exact_width (count total : Z) : Q :=
  (inject_Z chart_width * (inject_Z count / inject_Z total))%Q.

(** The sum of a list of rationals. *)
Definition Qsum (l : list Q) : Q := foldr Qplus 0%Q l.

(** The unit roundoff of a double, [2 ^ -53]. *)
Definition unit_roundoff : Q := 1 # 9007199254740992.

(** [w] is [v] up to the relative error of one rounding. *)
Definition close (v w : Q) : Prop :=
  ((1 - unit_roundoff) * v <= w ∧ w <= (1 + unit_roundoff) * v)%Q.

(** A mantissa [m] and a location [l], as the rounding of [SpecFloat] takes
    them, stand for the ratio [a / U]: the ratio is [m] exactly, or it lies
    strictly between [m] and [m + 1], below, at or above the middle as the
    comparison says. *)
Definition located (a U m : Z) (l : location) : Prop :=
  match l with
  | loc_Exact => a = m * U
  | loc_Inexact c =>
      m * U < a < (m + 1) * U ∧ (2 * a ?= (2 * m + 1) * U) = c
  end.

(** ** Tallies *)

Global Instance exn_eq_dec : EqDecision exn.
Proof. solve_decision. Defined.

Global Instance result_eq_dec {A} `{EqDecision A} : EqDecision (result A).
Proof. solve_decision. Defined.

(** The number of rows whose answer to [column] is [a]. *)
Definition answer_count (column a : str) (rows : list row) : Z :=
  Z.of_nat (length (filter (λ r, answer r column = Ok a) rows)).

(** ** The layout of a row *)

(** A drawn segment: where its bar starts, its width, the answer it stands
    for and its labels. *)
Record drawn := Drawn {
  bar_x : num;
  bar_w : num;
  bar_text : str;
  bar_labels : list str;
}.

(** The parts of a drawn segment in row [y]. *)
Definition drawn_parts (y : Z) (d : drawn) : list str :=
  bar_rect (bar_x d) y (bar_w d) (segment_color (bar_text d)) :: bar_labels d.

(** The bars tile the row from [x] to [x_end]: the first starts at [x], each
    other one starts where the one before it ends, and the last ends at
    [x_end]. *)
Fixpoint tiled (x : num) (ds : list drawn) (x_end : num) : Prop :=
  match ds with
  | [] => x_end = x
  | d :: ds' => bar_x d = x ∧ tiled (num_add x (bar_w d)) ds' x_end
  end.

(** The segment [d] is the one the loop draws for [entry] in row [y]. *)
Definition draws (y total : Z) (entry : str * Z) (d : drawn) : Prop :=
  bar_text d = entry.1
  ∧ segment_width entry.2 total = Ok (bar_w d)
  ∧ ∃ pct, segment_pct entry.2 total = Ok pct
           ∧ segment_labels (bar_x d) y (bar_w d) pct entry.1
             = Ok (bar_labels d).

(** The vertical position of row [i]. *)
Definition row_y (i : nat) : Z := top_margin + Z.of_nat i * row_gap.

(** The parts of question row [i]: its card, its label and its segments. *)
Definition row_parts (i : nat) (label : str) (segs : list str) : list str :=
  card_rect (row_y i) :: row_label (row_y i) label :: segs.

(** A result whose counts lie between 1 and its total, or whose total
    is 0. *)
Definition well_formed (res : str * counter * Z) : Prop :=
  res.2 = 0 ∨ Forall (λ kv, 1 ≤ kv.2 ≤ res.2) res.1.2.

(** The segments [segs] are the ones the loop draws for the result [res] in
    row [i], the cursor starting at [chart_left]. *)
Definition row_drawn (i : nat) (res : str * counter * Z) (segs : list str)
  : Prop :=
  ∃ x', for_each (segment (row_y i) res.2) res.1.2 ([], Int chart_left)
        = Ok (segs, x').

(** Row by row from row [i] on. *)
Fixpoint rows_drawn (i : nat) (results : list (str * counter * Z))
    (segss : list (list str)) : Prop :=
  match results, segss with
  | [], [] => True
  | res :: results', segs :: segss' =>
      row_drawn i res segs ∧ rows_drawn (S i) results' segss'
  | _, _ => False
  end.

(** The parts of the rows from row [i] on. *)
Fixpoint rows_parts (i : nat) (results : list (str * counter * Z))
    (segss : list (list str)) : list str :=
  match results, segss with
  | res :: results', segs :: segss' =>
      row_parts i res.1.1 segs ++ rows_parts (S i) results' segss'
  | _, _ => []
  end.

(** The result [res] is the summary of question [question] over [rows]. *)
Definition summary_of (rows : list row) (question : str * str)
    (res : str * counter * Z) : Prop :=
  res.1.1 = question.2 ∧ summarize rows question.1 = Ok (res.1.2, res.2).

(** ** Reading an SVG element *)

(** [s] without the prefix [p], when it starts with it. *)
Fixpoint after_prefix (p s : str) : option str :=
  match p, s with
  | [], _ => Some s
  | a :: p', b :: s' => if (a =? b)%N then after_prefix p' s' else None
  | _ :: _, [] => None
  end.

(** [s] without the suffix [p], when it ends with it. *)
Definition before_suffix (p s : str) : option str :=
  reverse <$> after_prefix (reverse p) (reverse s).

(** What follows the first occurrence of [pat] in [s]. *)
Fixpoint find_after (pat s : str) : option str :=
  match after_prefix pat s with
  | Some r => Some r
  | None =>
      match s with
      | [] => None
      | _ :: s' => find_after pat s'
      end
  end.

(** [s] up to its first [c]. *)
Fixpoint take_until (c : N) (s : str) : str :=
  match s with
  | [] => []
  | a :: s' => if (a =? c)%N then [] else a :: take_until c s'
  end.

(** The start tag of an element: up to its first [>]. *)
Definition open_tag (s : str) : str := take_until 62 s.

(** The value of the attribute [name] of an element: in the start tag, what
    stands between the first [name], preceded by a space and followed by an
    equals sign and a double quote, and the next double quote. *)
Definition attr (name : string) (s : str) : option str :=
  take_until 34
    <$> find_after (lit " " ++ lit name ++ lit "=" ++ [34%N]) (open_tag s).

(** The text of a [<text>] element: what stands between the start tag and
    the final [</text>]. *)
Definition content (s : str) : option str :=
  find_after (lit ">") s ≫= before_suffix (lit "</text>").

(** A string without space, double quote or [>]. *)
Definition plain (s : str) : Prop :=
  Forall (λ c : N, c ≠ 32%N ∧ c ≠ 34%N ∧ c ≠ 62%N) s.

(** ** Sample data *)

(** A row of an export with the three bookkeeping columns and one question
    column. *)
Definition survey_row (id start finished : string) (column answer : string)
  : row :=
  list_to_map
    [ (lit "ResponseId", CStr (lit id));
      (lit "StartDate", CStr (lit start));
      (lit "Finished", CStr (lit finished));
      (lit column, CStr (lit answer)) ].
Arguments survey_row (id start finished column answer)%_string.

(** A completed response answering ["Q29"]. *)
Definition q29_row (id answer : string) : row :=
  survey_row id "2025-12-30 10:00:00" "True" "Q29" answer.
Arguments q29_row (id answer)%_string.

(** A completed response of an export that has no ["Q29"] column. *)
Definition row_without_q29 : row :=
  survey_row "R_1" "2025-12-30 10:00:00" "True" "Q51" "Increased desire".

(** A completed response answering the five questions. *)
Definition complete_row (id q29 q51 q52 q6 q25 : string) : row :=
  list_to_map
    [ (lit "ResponseId", CStr (lit id));
      (lit "StartDate", CStr (lit "2025-12-30 10:00:00"));
      (lit "Finished", CStr (lit "True"));
      (lit "Q29", CStr (lit q29));
      (lit "Q51", CStr (lit q51));
      (lit "Q52", CStr (lit q52));
      (lit "Q6", CStr (lit q6));
      (lit "Q25", CStr (lit q25)) ].
Arguments complete_row (id q29 q51 q52 q6 q25)%_string.

Definition two_complete_rows : list row :=
  [ complete_row "R_1" "Very likely" "Increased desire" "No change in desire"
      "Somewhat Positive" "Very attractive";
    complete_row "R_2" "Somewhat likely" "Increased desire" ""
      "Neutral" "Somewhat attractive" ].

(** Seven completed responses: two, four and one of three answers. *)
Definition seven_rows : list row :=
  [ q29_row "R_1" "Somewhat unlikely"; q29_row "R_2" "Very unlikely";
    q29_row "R_3" "Somewhat unlikely"; q29_row "R_4" "Somewhat unlikely";
    q29_row "R_5" "Neither likely nor unlikely";
    q29_row "R_6" "Very unlikely"; q29_row "R_7" "Somewhat unlikely" ].

Definition seven_summary : counter :=
  [ (lit "Very unlikely", 2); (lit "Somewhat unlikely", 4);
    (lit "Neither likely nor unlikely", 1) ].

(** A world with two complete responses, and the world [main] leaves. *)
Definition sample_world : world :=
  {| csv_file := Ok two_complete_rows;
     OUTPUT_PATH := lit "visuals/cpa_survey_key_findings.svg";
     output_writable := true; svg_file := None; stdout := [] |}.

Definition sample_world_after : world :=
  match main sample_world with
  | Ok w' => w'
  | Raise _ => sample_world
  end.

(** * Properties *)

(** ** Trimming *)

Example strip_examples :
  strip (lit "  Very likely ") = lit "Very likely"
  ∧ strip ([9; 160; 8195] ++ lit "No change in desire" ++ [13; 10])%N
    = lit "No change in desire"
  ∧ strip ([32; 9; 12288; 10])%N = [].
Proof. split_and!; reflexivity. Qed.

(** ** The loader *)

Lemma cell_bool_true (r : row) (key : str) :
  cell_bool (row_get r key) = true ↔ nonempty_text key r.
Proof.
  unfold row_get, nonempty_text. split.
  - destruct (r !! key) as [[|[|c s]]|]; simpl; try discriminate.
    intros _. by exists (c :: s).
  - intros (s & -> & Hs). destruct s; [done | reflexivity].
Qed.

Lemma row_get_ne (r : row) (key s : str) :
  row_get r key ≠ CStr s ↔ r !! key ≠ Some (CStr s).
Proof.
  unfold row_get. destruct (r !! key) as [v|]; simpl; [| done].
  split; intros H ?; apply H; congruence.
Qed.

Lemma row_get_eq (r : row) (key s : str) :
  row_get r key = CStr s ↔ r !! key = Some (CStr s).
Proof.
  unfold row_get. destruct (r !! key) as [v|]; simpl; [| done].
  split; congruence.
Qed.

Lemma keep_retained (r : row) : keep r = true ↔ retained r.
Proof.
  unfold keep, retained.
  rewrite !andb_true_iff, !bool_decide_eq_true.
  rewrite cell_bool_true, row_get_ne, row_get_eq. tauto.
Qed.

Lemma clean_filter (rows : list row) : clean rows = filter retained rows.
Proof.
  unfold clean. induction rows as [|r rows IH]; [done |].
  simpl. rewrite filter_cons.
  destruct (keep r) eqn:Hk; destruct (decide (retained r)) as [Hr|Hr].
  - by rewrite IH.
  - by apply keep_retained in Hk.
  - apply keep_retained in Hr. congruence.
  - done.
Qed.

(** C1. The loader returns exactly the subsequence of the input rows that have
    a non-empty ["ResponseId"], a ["StartDate"] other than ["Start Date"] and
    ["Finished"] equal to ["True"]: a row is among the retained ones if and
    only if it is an input row meeting all three conditions. *)
Theorem load_rows_retains_iff (rows : list row) :
  load_rows (Ok rows) = Ok (filter retained rows)
  ∧ ∀ r, r ∈ filter retained rows ↔ r ∈ rows ∧ retained r.
Proof.
  split.
  - unfold load_rows. simpl. by rewrite clean_filter.
  - intros r. rewrite list_elem_of_filter. tauto.
Qed.

(** An exception raised while the file is opened and read is not handled. *)
Lemma load_rows_propagates (e : exn) : load_rows (Raise e) = Raise e.
Proof. reflexivity. Qed.

(** The spec's scenario: of ten rows, one repeats the header and one is
    unfinished; the other eight are retained. *)
Example load_rows_ten :
  length <$> load_rows (Ok
    [ q29_row "R_1" "Very likely"; q29_row "R_2" "Somewhat likely";
      survey_row "Response ID" "Start Date" "Finished" "Q29" "Likelihood";
      q29_row "R_3" "Very likely"; q29_row "R_4" "";
      survey_row "R_5" "2025-12-30 11:00:00" "False" "Q29" "Very unlikely";
      q29_row "R_6" "Very unlikely"; q29_row "R_7" "Somewhat unlikely";
      q29_row "R_8" "Very likely"; q29_row "R_9" "Very likely" ])
  = Ok 8%nat.
Proof. vm_compute. reflexivity. Qed.

(** A row without an identifier, or whose identifier cell is missing, is
    dropped, and so is a row whose ["Finished"] is not exactly ["True"]. *)
Example load_rows_drops :
  load_rows (Ok
    [ q29_row "" "Very likely";
      {[ lit "StartDate" := CStr (lit "2025-12-30");
         lit "Finished" := CStr (lit "True") ]};
      {[ lit "ResponseId" := CNone; lit "Finished" := CStr (lit "True") ]};
      survey_row "R_1" "2025-12-30" "true" "Q29" "Very likely";
      survey_row "R_2" "2025-12-30" "" "Q29" "Very likely";
      {[ lit "ResponseId" := CStr (lit "R_3") ]} ])
  = Ok [].
Proof. vm_compute. reflexivity. Qed.

(** ** Exceptions and sequencing *)

Lemma bind_Ok {A B} (m : result A) (f : A → result B) (b : B) :
  m ≫= f = Ok b ↔ ∃ a, m = Ok a ∧ f a = Ok b.
Proof.
  destruct m as [a|e]; simpl; split.
  - intros H. by exists a.
  - by intros (a' & [= <-] & H).
  - discriminate.
  - by intros (a' & [=] & _).
Qed.

(** ** Order of appearance *)

Lemma precedes_split {A} (a b : A) (l : list A) :
  precedes a b l ↔ ∃ l1 l2 l3, l = l1 ++ a :: l2 ++ b :: l3.
Proof.
  split.
  - intros (i & j & Hij & Hi & Hj).
    apply list_elem_of_split_length in Hi as (l1 & r & -> & ->).
    rewrite lookup_app_r in Hj by lia.
    destruct (j - length l1)%nat as [|k] eqn:Hk; [lia |].
    simpl in Hj. apply list_elem_of_split_length in Hj as (l2 & l3 & -> & _).
    by exists l1, l2, l3.
  - intros (l1 & l2 & l3 & ->).
    exists (length l1), (length l1 + S (length l2))%nat.
    split; [lia |]. split.
    + by rewrite list_lookup_middle.
    + rewrite lookup_app_r by lia.
      replace (length l1 + S (length l2) - length l1)%nat
        with (S (length l2)) by lia.
      simpl. by apply list_lookup_middle.
Qed.

Lemma precedes_cons {A} (a b x : A) (l : list A) :
  precedes a b l → precedes a b (x :: l).
Proof.
  intros (i & j & Hij & Hi & Hj). exists (S i), (S j).
  split; [lia | done].
Qed.

Lemma precedes_head {A} (a b : A) (l : list A) :
  b ∈ l → precedes a b (a :: l).
Proof.
  intros (j & Hj)%list_elem_of_lookup. exists 0%nat, (S j).
  split; [lia | done].
Qed.

Lemma precedes_fmap {A B} (f : A → B) (a b : A) (l : list A) :
  precedes a b l → precedes (f a) (f b) (f <$> l).
Proof.
  intros (i & j & Hij & Hi & Hj). exists i, j.
  rewrite !list_lookup_fmap, Hi, Hj. done.
Qed.

Lemma precedes_NoDup_asym {A} (a b : A) (l : list A) :
  NoDup l → precedes a b l → ¬ precedes b a l.
Proof.
  intros Hnd (i & j & Hij & Hi & Hj) (i' & j' & Hij' & Hi' & Hj').
  pose proof (NoDup_lookup _ _ _ _ Hnd Hi Hj').
  pose proof (NoDup_lookup _ _ _ _ Hnd Hj Hi'). lia.
Qed.

Lemma precedes_total {A} (a b : A) (l : list A) :
  a ≠ b → a ∈ l → b ∈ l → precedes a b l ∨ precedes b a l.
Proof.
  intros Hne (i & Hi)%list_elem_of_lookup (j & Hj)%list_elem_of_lookup.
  destruct (lt_eq_lt_dec i j) as [[Hlt | ->] | Hlt].
  - left. by exists i, j.
  - congruence.
  - right. by exists j, i.
Qed.

(** ** The stable sort *)

Section sorting.
Context {A : Type} (key : A → Z).

Lemma insert_by_perm (x : A) (l : list A) : insert_by key x l ≡ₚ x :: l.
Proof.
  induction l as [|y l IH]; simpl; [done |].
  destruct (key x <=? key y); [done |].
  rewrite IH. apply Permutation_swap.
Qed.

Lemma sorted_perm (l : list A) : sorted l key ≡ₚ l.
Proof.
  induction l as [|x l IH]; simpl; [done |].
  unfold sorted in IH. by rewrite insert_by_perm, IH.
Qed.

Lemma insert_by_Sorted (x : A) (l : list A) :
  StronglySorted (λ a b, key a ≤ key b) l →
  StronglySorted (λ a b, key a ≤ key b) (insert_by key x l).
Proof.
  induction 1 as [|y l Hl IH Hy]; simpl.
  - repeat constructor.
  - destruct (key x <=? key y) eqn:Hxy.
    + apply Z.leb_le in Hxy. constructor; [by constructor |].
      constructor; [done |].
      eapply Forall_impl; [exact Hy |]. simpl. lia.
    + apply Z.leb_gt in Hxy. constructor; [done |].
      rewrite insert_by_perm. constructor; [lia | done].
Qed.

Lemma sorted_Sorted (l : list A) :
  StronglySorted (λ a b, key a ≤ key b) (sorted l key).
Proof.
  induction l as [|x l IH]; simpl; [constructor |].
  by apply insert_by_Sorted.
Qed.

Lemma Sorted_precedes (a b : A) (l : list A) :
  StronglySorted (λ a b, key a ≤ key b) l → precedes a b l →
  key a ≤ key b.
Proof.
  intros Hs (l1 & l2 & l3 & ->)%precedes_split.
  apply StronglySorted_app_1_r in Hs.
  apply StronglySorted_cons in Hs as [Hall _].
  rewrite Forall_forall in Hall. apply Hall.
  rewrite elem_of_app, elem_of_cons. auto.
Qed.

(** Insertion keeps the order of the elements that were there. *)
Lemma insert_by_precedes_old (x a b : A) (l : list A) :
  precedes a b l → precedes a b (insert_by key x l).
Proof.
  induction l as [|y l IH]; simpl; intros Hp.
  - destruct Hp as (i & j & _ & Hi & _). by rewrite lookup_nil in Hi.
  - destruct (key x <=? key y); [by apply precedes_cons |].
    destruct Hp as (i & j & Hij & Hi & Hj).
    destruct i as [|i].
    + simplify_eq/=. destruct j as [|j]; [lia |]. simpl in Hj.
      apply precedes_head. rewrite insert_by_perm.
      apply elem_of_cons. right. by eapply list_elem_of_lookup_2.
    + destruct j as [|j]; [lia |]. simpl in *.
      apply precedes_cons, IH. exists i, j. split; [lia | done].
Qed.

(** The inserted element goes before every element whose key is not
    smaller. *)
Lemma insert_by_precedes_new (x b : A) (l : list A) :
  b ∈ l → key x ≤ key b → precedes x b (insert_by key x l).
Proof.
  induction l as [|y l IH]; simpl; intros Hb Hk.
  - by apply not_elem_of_nil in Hb.
  - destruct (key x <=? key y) eqn:Hxy; [by apply precedes_head |].
    apply Z.leb_gt in Hxy.
    apply elem_of_cons in Hb as [-> | Hb]; [lia |].
    by apply precedes_cons, IH.
Qed.

(** Stability: elements whose keys are in order keep their order. *)
Lemma sorted_stable (a b : A) (l : list A) :
  precedes a b l → key a ≤ key b → precedes a b (sorted l key).
Proof.
  intros (l1 & l2 & l3 & ->)%precedes_split Hk.
  induction l1 as [|x l1 IH]; simpl.
  - apply insert_by_precedes_new; [| done].
    fold (sorted (l2 ++ b :: l3) key). rewrite sorted_perm.
    rewrite elem_of_app, elem_of_cons. auto.
  - by apply insert_by_precedes_old.
Qed.
End sorting.

(** ** Counting *)

Lemma counter_incr_keys (c : counter) (x : str) :
  (counter_incr c x).*1 = if decide (x ∈ c.*1) then c.*1 else c.*1 ++ [x].
Proof.
  induction c as [|[k n] c IH]; [done |].
  cbn [counter_incr fmap list_fmap fst].
  destruct (decide (k = x)) as [-> | Hne].
  - rewrite decide_True by (apply elem_of_cons; auto). done.
  - cbn [fmap list_fmap fst]. rewrite IH.
    destruct (decide (x ∈ c.*1)) as [Hin | Hnin].
    + rewrite decide_True by (apply elem_of_cons; auto). done.
    + rewrite decide_False; [done |].
      rewrite elem_of_cons. intros [-> | ?]; done.
Qed.

Lemma counter_incr_sum (c : counter) (x : str) :
  sum_values (counter_incr c x) = sum_values c + 1.
Proof.
  unfold sum_values. induction c as [|[k n] c IH]; [done |].
  cbn [counter_incr]. rewrite fmap_cons in *.
  destruct (decide (k = x)); rewrite fmap_cons; cbn [foldr snd] in *; lia.
Qed.

Lemma counter_incr_positive (c : counter) (x : str) :
  Forall (λ kv, 1 ≤ kv.2) c → Forall (λ kv, 1 ≤ kv.2) (counter_incr c x).
Proof.
  induction 1 as [|[k n] c Hn Hc IH]; simpl.
  - repeat constructor. simpl. lia.
  - destruct (decide (k = x)); constructor; simpl in *; try done. lia.
Qed.

Lemma counter_incr_NoDup (c : counter) (x : str) :
  NoDup c.*1 → NoDup (counter_incr c x).*1.
Proof.
  intros Hnd. rewrite counter_incr_keys.
  destruct (decide (x ∈ c.*1)) as [Hin | Hnin]; [done |].
  apply NoDup_app. split_and!; [done | | apply NoDup_singleton].
  intros y Hy ->%list_elem_of_singleton. done.
Qed.

(** The keys of a counter fed with [l]: the keys it had, followed by the new
    ones. *)
Lemma fold_counter_keys (l : list str) (c : counter) :
  ∃ new, (fold_left counter_incr l c).*1 = c.*1 ++ new
         ∧ ∀ x, x ∈ new ↔ x ∈ l ∧ x ∉ c.*1.
Proof.
  revert c. induction l as [|y l IH]; intros c; simpl.
  - exists []. rewrite app_nil_r. split; [done |]. intros x.
    rewrite !elem_of_nil. tauto.
  - destruct (IH (counter_incr c y)) as (new & Hkeys & Hnew).
    rewrite counter_incr_keys in Hkeys, Hnew.
    destruct (decide (y ∈ c.*1)) as [Hin | Hnin].
    + exists new. split; [done |]. intros x. rewrite Hnew, elem_of_cons.
      split; [tauto |]. intros [[-> | ?] ?]; tauto.
    + exists (y :: new). split.
      * by rewrite Hkeys, <- app_assoc.
      * intros x. rewrite !elem_of_cons, Hnew, elem_of_app.
        rewrite list_elem_of_singleton.
        destruct (decide (x = y)) as [-> | Hne]; [tauto |]. tauto.
Qed.

Lemma Counter_snoc (l : list str) (x : str) :
  Counter (l ++ [x]) = counter_incr (Counter l) x.
Proof. unfold Counter. by rewrite fold_left_app. Qed.

Lemma Counter_keys (l : list str) (x : str) : x ∈ (Counter l).*1 ↔ x ∈ l.
Proof.
  destruct (fold_counter_keys l []) as (new & Hkeys & Hnew).
  unfold Counter. rewrite Hkeys. simpl. rewrite Hnew.
  rewrite elem_of_nil. tauto.
Qed.

Lemma Counter_NoDup (l : list str) : NoDup (Counter l).*1.
Proof.
  induction l as [|x l IH] using rev_ind; [constructor |].
  rewrite Counter_snoc. by apply counter_incr_NoDup.
Qed.

Lemma Counter_positive (l : list str) : Forall (λ kv, 1 ≤ kv.2) (Counter l).
Proof.
  induction l as [|x l IH] using rev_ind; [constructor |].
  rewrite Counter_snoc. by apply counter_incr_positive.
Qed.

Lemma Counter_sum (l : list str) : sum_values (Counter l) = Z.of_nat (length l).
Proof.
  induction l as [|x l IH] using rev_ind; [done |].
  rewrite Counter_snoc, counter_incr_sum, IH, length_app. simpl. lia.
Qed.

(** Keys are inserted at first occurrence: a key met before [b] is ever met
    stands before [b]. *)
Lemma Counter_keys_precedes (l1 l2 : list str) (a b : str) :
  a ≠ b → b ∉ l1 → b ∈ l2 →
  precedes a b (Counter (l1 ++ a :: l2)).*1.
Proof.
  intros Hne Hb1 Hb2. unfold Counter.
  rewrite fold_left_app. simpl.
  set (c := counter_incr (fold_left counter_incr l1 []) a).
  assert (Ha : a ∈ c.*1).
  { unfold c. rewrite counter_incr_keys. case_decide; [done |].
    apply elem_of_app. right. by apply list_elem_of_singleton. }
  assert (Hb : b ∉ c.*1).
  { unfold c. rewrite counter_incr_keys. fold (Counter l1).
    case_decide.
    - by rewrite Counter_keys.
    - rewrite elem_of_app, Counter_keys, list_elem_of_singleton.
      intros [? | ?]; done. }
  destruct (fold_counter_keys l2 c) as (new & -> & Hnew).
  apply list_elem_of_split in Ha as (k1 & k2 & ->).
  assert (b ∈ new) as (n1 & n2 & ->)%list_elem_of_split by by apply Hnew.
  apply precedes_split. exists k1, (k2 ++ n1), n2.
  by rewrite <- !app_assoc.
Qed.

Lemma sum_values_perm (c1 c2 : counter) :
  c1 ≡ₚ c2 → sum_values c1 = sum_values c2.
Proof.
  unfold sum_values.
  induction 1; rewrite ?fmap_cons; cbn [foldr] in *; lia.
Qed.

Lemma sum_values_positive (c : counter) :
  Forall (λ kv, 1 ≤ kv.2) c → Z.of_nat (length c) ≤ sum_values c.
Proof.
  unfold sum_values.
  induction 1 as [|[k n] c Hn Hc IH]; [done |].
  rewrite fmap_cons. cbn [foldr snd length] in *. lia.
Qed.

Lemma sum_values_bound (c : counter) (kv : str * Z) :
  Forall (λ kv, 1 ≤ kv.2) c → kv ∈ c → kv.2 ≤ sum_values c.
Proof.
  unfold sum_values. intros Hpos Hin.
  induction Hpos as [|[k n] c Hn Hc IH]; [by apply elem_of_nil in Hin |].
  rewrite fmap_cons. cbn [foldr snd] in *.
  pose proof (sum_values_positive c Hc) as Hsum. unfold sum_values in Hsum.
  apply elem_of_cons in Hin as [-> | Hin]; simpl; [lia |].
  specialize (IH Hin). lia.
Qed.

(** ** The generator of answers *)

Lemma str_bool_true (s : str) : str_bool s = true ↔ s ≠ [].
Proof. by destruct s. Qed.

Lemma answer_Ok (r : row) (column a : str) :
  answer r column = Ok a ↔ ∃ s, r !! column = Some (CStr s) ∧ a = strip s.
Proof.
  unfold answer, row_item.
  destruct (r !! column) as [[|s]|]; simpl; split;
    try discriminate; try (by intros (? & [=] & _)).
  - intros [= <-]. eauto.
  - by intros (? & [= <-] & ->).
Qed.

Lemma answer_raises (r : row) (column : str) (e : exn) :
  answer r column = Raise e → e = KeyError column ∨ e = AttributeError.
Proof.
  unfold answer, row_item.
  destruct (r !! column) as [[|s]|]; simpl; intros [=]; auto.
Qed.

Lemma answers_cons_Ok (r : row) (rows : list row) (column : str)
    (cells : list str) :
  answers (r :: rows) column = Ok cells ↔
  ∃ a rest, answer r column = Ok a ∧ answers rows column = Ok rest
            ∧ cells = if str_bool a then a :: rest else rest.
Proof.
  cbn [answers]. rewrite bind_Ok. split.
  - intros (a & Ha & (rest & Hrest & [= <-])%bind_Ok). eauto.
  - intros (a & rest & Ha & Hrest & ->). exists a. split; [done |].
    apply bind_Ok. eauto.
Qed.

Lemma answers_Ok_iff (rows : list row) (column : str) :
  (∃ cells, answers rows column = Ok cells) ↔ Forall (has_text column) rows.
Proof.
  induction rows as [|r rows IH].
  - split; [constructor | by exists []].
  - rewrite Forall_cons, <- IH. split.
    + intros (cells & (a & rest & Ha & Hrest & _)%answers_cons_Ok).
      apply answer_Ok in Ha as (s & Hs & _). split; [by exists s | eauto].
    + intros ((s & Hs) & (rest & Hrest)). eexists.
      apply answers_cons_Ok. exists (strip s), rest.
      split_and!; [apply answer_Ok; eauto | done | done].
Qed.

Lemma answers_raises (rows : list row) (column : str) (e : exn) :
  answers rows column = Raise e → e = KeyError column ∨ e = AttributeError.
Proof.
  induction rows as [|r rows IH]; cbn [answers]; [discriminate |].
  destruct (answer r column) as [a|e'] eqn:Ha; simpl.
  - destruct (answers rows column); simpl; [discriminate |].
    intros [= <-]. by apply IH.
  - intros [= <-]. by eapply answer_raises.
Qed.

Lemma answers_length (rows : list row) (column : str) (cells : list str) :
  answers rows column = Ok cells →
  length cells = length (filter (answered column) rows).
Proof.
  revert cells. induction rows as [|r rows IH]; intros cells.
  - by intros [= <-].
  - intros (a & rest & Ha & Hrest & ->)%answers_cons_Ok.
    apply answer_Ok in Ha as (s & Hs & ->). specialize (IH _ Hrest).
    rewrite filter_cons. destruct (str_bool (strip s)) eqn:Hb.
    + apply str_bool_true in Hb. rewrite decide_True by (by exists s).
      simpl. by rewrite IH.
    + rewrite decide_False; [done |].
      intros (s' & Hs' & Hne). rewrite Hs in Hs'. simplify_eq.
      apply str_bool_true in Hne. congruence.
Qed.

Lemma answers_elem (rows : list row) (column : str) (cells : list str)
    (a : str) :
  answers rows column = Ok cells → a ∈ cells ↔ occurs column a rows.
Proof.
  unfold occurs. revert cells.
  induction rows as [|r rows IH]; intros cells.
  - intros [= <-]. rewrite elem_of_nil. split; [done |].
    by intros (_ & r & ?%elem_of_nil & _).
  - intros (a' & rest & Ha & Hrest & ->)%answers_cons_Ok.
    specialize (IH _ Hrest). split.
    + destruct (str_bool a') eqn:Hb.
      * intros [-> | Hin]%elem_of_cons.
        -- split; [by apply str_bool_true |]. exists r.
           split; [apply elem_of_cons; auto | done].
        -- apply IH in Hin as (Hne & r' & Hr' & Ha').
           split; [done |]. exists r'. split; [apply elem_of_cons; auto | done].
      * intros Hin. apply IH in Hin as (Hne & r' & Hr' & Ha').
        split; [done |]. exists r'. split; [apply elem_of_cons; auto | done].
    + intros (Hne & r' & [-> | Hr']%elem_of_cons & Ha').
      * rewrite Ha in Ha'. injection Ha' as ->.
        apply str_bool_true in Hne. rewrite Hne. apply elem_of_cons. auto.
      * assert (a ∈ rest) by (apply IH; eauto).
        destruct (str_bool a'); [apply elem_of_cons |]; auto.
Qed.

Lemma answers_app (rows1 rows2 : list row) (column : str)
    (cells : list str) :
  answers (rows1 ++ rows2) column = Ok cells →
  ∃ c1 c2, answers rows1 column = Ok c1 ∧ answers rows2 column = Ok c2
           ∧ cells = c1 ++ c2.
Proof.
  revert cells. induction rows1 as [|r rows1 IH]; intros cells.
  - intros H. by exists [], cells.
  - rewrite <- app_comm_cons.
    intros (a & rest & Ha & Hrest & ->)%answers_cons_Ok.
    destruct (IH _ Hrest) as (c1 & c2 & H1 & H2 & ->).
    exists (if str_bool a then a :: c1 else c1), c2.
    split_and!; [| done | by destruct (str_bool a)].
    apply answers_cons_Ok. by exists a, c1.
Qed.

Lemma summarize_Ok (rows : list row) (column : str) (ordered : counter)
    (total : Z) :
  summarize rows column = Ok (ordered, total) ↔
  ∃ cells, answers rows column = Ok cells
           ∧ ordered = sorted (Counter cells) sort_key
           ∧ total = sum_values (Counter cells).
Proof.
  unfold summarize. rewrite bind_Ok. split.
  - intros (cells & Hc & [= <- <-]). eauto.
  - intros (cells & Hc & -> & ->). eauto.
Qed.

Lemma summarize_keys (rows : list row) (column : str) (ordered : counter)
    (total : Z) (a : str) :
  summarize rows column = Ok (ordered, total) →
  a ∈ ordered.*1 ↔ occurs column a rows.
Proof.
  intros (cells & Hc & -> & _)%summarize_Ok.
  rewrite sorted_perm, Counter_keys. by apply answers_elem.
Qed.

Lemma summarize_NoDup (rows : list row) (column : str) (ordered : counter)
    (total : Z) :
  summarize rows column = Ok (ordered, total) → NoDup ordered.*1.
Proof.
  intros (cells & Hc & -> & _)%summarize_Ok.
  rewrite sorted_perm. apply Counter_NoDup.
Qed.

Lemma summarize_positive (rows : list row) (column : str)
    (ordered : counter) (total : Z) :
  summarize rows column = Ok (ordered, total) →
  Forall (λ kv, 1 ≤ kv.2) ordered ∧ total = sum_values ordered.
Proof.
  intros (cells & Hc & -> & ->)%summarize_Ok. split.
  - rewrite sorted_perm. apply Counter_positive.
  - apply sum_values_perm. by rewrite sorted_perm.
Qed.

(** ** The rank table *)

Lemma ORDER_range (a : str) (r : Z) : ORDER !! a = Some r → 0 ≤ r ≤ 4.
Proof.
  intros H. apply elem_of_list_to_map_2 in H.
  assert (Hall : Forall (λ kv : str * Z, 0 ≤ kv.2 ≤ 4) ORDER_items).
  { unfold ORDER_items. repeat (apply Forall_cons; split; [simpl; lia |]).
    apply Forall_nil_2. }
  rewrite Forall_forall in Hall. apply (Hall _ H).
Qed.

Lemma precedes_fmap_inv {A B} (f : A → B) (a b : B) (l : list A) :
  precedes a b (f <$> l) →
  ∃ x y, f x = a ∧ f y = b ∧ precedes x y l.
Proof.
  intros (i & j & Hij & Hi & Hj).
  rewrite list_lookup_fmap in Hi, Hj.
  destruct (l !! i) as [x|] eqn:Hx; [| done].
  destruct (l !! j) as [y|] eqn:Hy; [| done].
  simpl in *. simplify_eq. exists x, y. split_and!; [done.. |].
  by exists i, j.
Qed.

(** ** The claims on [summarize] *)

(** C2, amended. [summarize] returns an ordered summary and a
    total exactly when every row holds a string under the column; otherwise
    it raises, [KeyError] for the column where a row lacks it and
    [AttributeError] where the cell is [None]. *)
Theorem summarize_returns_iff (rows : list row) (column : str) :
  ((∃ ordered total, summarize rows column = Ok (ordered, total))
   ↔ Forall (has_text column) rows)
  ∧ ∀ e, summarize rows column = Raise e →
         e = KeyError column ∨ e = AttributeError.
Proof.
  split.
  - rewrite <- answers_Ok_iff. split.
    + intros (ordered & total & (cells & Hc & _)%summarize_Ok). eauto.
    + intros (cells & Hc). do 2 eexists. apply summarize_Ok. eauto.
  - intros e. unfold summarize.
    destruct (answers rows column) as [cells|e'] eqn:Hc; simpl; [done |].
    intros [= <-]. by eapply answers_raises.
Qed.

(** C2, counterexample. A completed response whose export has no ["Q29"]
    column passes the loader, and [summarize] raises [KeyError] on it. *)
Lemma summarize_missing_column_raises :
  load_rows (Ok [row_without_q29]) = Ok [row_without_q29]
  ∧ summarize [row_without_q29] (lit "Q29") = Raise (KeyError (lit "Q29")).
Proof. split; vm_compute; reflexivity. Qed.

(** C3. The total returned by [summarize] is the number of rows whose value
    in the column is non-empty after trimming, and it is the sum of the
    counts listed; no empty answer is listed. *)
Theorem summarize_total (rows : list row) (column : str) (ordered : counter)
    (total : Z) :
  summarize rows column = Ok (ordered, total) →
  total = Z.of_nat (length (filter (answered column) rows))
  ∧ total = sum_values ordered
  ∧ [] ∉ ordered.*1.
Proof.
  intros Hs. split_and!.
  - apply summarize_Ok in Hs as (cells & Hc & _ & ->).
    rewrite Counter_sum. f_equal. by eapply answers_length.
  - by apply summarize_positive in Hs as [_ ?].
  - rewrite (summarize_keys _ _ _ _ _ Hs). by intros [? _].
Qed.

Lemma summarize_total_witness :
  3 = Z.of_nat (length (filter (answered (lit "Q29"))
        [q29_row "R_1" "Very likely"; q29_row "R_2" "  ";
         q29_row "R_3" " Very likely "; q29_row "R_4" "";
         q29_row "R_5" "Somewhat unlikely"]))
  ∧ 3 = sum_values [(lit "Somewhat unlikely", 1); (lit "Very likely", 2)]
  ∧ [] ∉ [(lit "Somewhat unlikely", 1); (lit "Very likely", 2)].*1.
Proof.
  apply (summarize_total
           [q29_row "R_1" "Very likely"; q29_row "R_2" "  ";
            q29_row "R_3" " Very likely "; q29_row "R_4" "";
            q29_row "R_5" "Somewhat unlikely"]
           (lit "Q29")).
  vm_compute. reflexivity.
Defined.

Lemma sort_key_lt (a b : str) (ca cb : Z) :
  (∃ ra rb, ORDER !! a = Some ra ∧ ORDER !! b = Some rb ∧ ra < rb)
  ∨ (is_Some (ORDER !! a) ∧ ORDER !! b = None) →
  sort_key (a, ca) < sort_key (b, cb).
Proof.
  unfold sort_key. cbn [fst].
  intros [(ra & rb & -> & -> & Hlt) | [[ra Ha] ->]]; [done |].
  rewrite Ha. apply ORDER_range in Ha. cbn [from_option id]. lia.
Qed.

(** C4. In the summary every answer is listed once, and an answer of the
    rank table stands strictly before every answer of higher rank and before
    every answer that is not in the table, whatever their counts. *)
Theorem summarize_rank_order (rows : list row) (column : str)
    (ordered : counter) (total : Z) (a b : str) :
  summarize rows column = Ok (ordered, total) →
  occurs column a rows → occurs column b rows →
  (∃ ra rb, ORDER !! a = Some ra ∧ ORDER !! b = Some rb ∧ ra < rb)
  ∨ (is_Some (ORDER !! a) ∧ ORDER !! b = None) →
  NoDup ordered.*1 ∧ precedes a b ordered.*1.
Proof.
  intros Hs Ha Hb Hrank.
  pose proof (summarize_NoDup _ _ _ _ Hs) as Hnd. split; [done |].
  apply (summarize_keys _ _ _ _ _ Hs) in Ha, Hb.
  assert (Hne : a ≠ b).
  { intros ->. pose proof (sort_key_lt b b 0 0 Hrank). lia. }
  destruct (precedes_total a b _ Hne Ha Hb) as [Hp | Hp]; [done |].
  exfalso. apply precedes_fmap_inv in Hp as ([b' cb] & [a' ca] & Hb' & Ha' & Hp).
  cbn [fst] in Ha', Hb'. subst a' b'.
  apply summarize_Ok in Hs as (cells & _ & -> & _).
  apply (Sorted_precedes sort_key) in Hp; [| apply sorted_Sorted].
  pose proof (sort_key_lt a b ca cb Hrank). lia.
Qed.

Lemma summarize_rank_order_witness :
  NoDup [(lit "Very unlikely", 1); (lit "Very likely", 2); (lit "zeta", 1)].*1
  ∧ precedes (lit "Very unlikely") (lit "Very likely")
      [(lit "Very unlikely", 1); (lit "Very likely", 2); (lit "zeta", 1)].*1.
Proof.
  apply (summarize_rank_order
           [q29_row "R_1" "Very likely"; q29_row "R_2" "zeta";
            q29_row "R_3" "Very likely"; q29_row "R_4" "Very unlikely"]
           (lit "Q29")
           [(lit "Very unlikely", 1); (lit "Very likely", 2); (lit "zeta", 1)]
           4 (lit "Very unlikely") (lit "Very likely")).
  - vm_compute. reflexivity.
  - split; [done |]. exists (q29_row "R_4" "Very unlikely").
    split; [set_solver | vm_compute; reflexivity].
  - split; [done |]. exists (q29_row "R_1" "Very likely").
    split; [set_solver | vm_compute; reflexivity].
  - left. exists 0, 4. split_and!; [vm_compute; reflexivity.. | lia].
Defined.

(** C9. Ties are settled by first occurrence: of two distinct answers with
    the same sort key, the one that a row gives before any row gives the
    other stands first in the summary. *)
Theorem summarize_ties_first_occurrence (rows : list row) (column : str)
    (ordered : counter) (total : Z) (a b : str) (i : nat) (ra : row) :
  summarize rows column = Ok (ordered, total) →
  a ≠ b → a ≠ [] →
  default 999 (ORDER !! a) = default 999 (ORDER !! b) →
  rows !! i = Some ra → answer ra column = Ok a →
  (∀ j rb, (j < i)%nat → rows !! j = Some rb → answer rb column ≠ Ok b) →
  occurs column b rows →
  precedes a b ordered.*1.
Proof.
  intros Hs Hne Ha0 Hkey Hi Ha Hbefore Hb.
  apply summarize_Ok in Hs as (cells & Hc & -> & _).
  apply (answers_elem _ _ _ b Hc) in Hb.
  apply list_elem_of_split_length in Hi as (rows1 & rows2 & -> & ->).
  apply answers_app in Hc as (c1 & c2 & Hc1 & Hc2 & ->).
  apply answers_cons_Ok in Hc2 as (a' & rest & Ha' & Hrest & ->).
  rewrite Ha in Ha'. injection Ha' as <-.
  apply str_bool_true in Ha0. rewrite Ha0 in *.
  assert (Hb1 : b ∉ c1).
  { intros (_ & rb & Hrb & Hab)%(answers_elem _ _ _ b Hc1).
    apply list_elem_of_lookup in Hrb as (j & Hj).
    apply (Hbefore j rb); [by eapply lookup_lt_Some | | done].
    by apply lookup_app_l_Some. }
  assert (Hb2 : b ∈ rest).
  { apply elem_of_app in Hb as [Hb | [-> | Hb]%elem_of_cons].
    - by destruct Hb1.
    - by destruct Hne.
    - exact Hb. }
  pose proof (Counter_keys_precedes c1 rest a b Hne Hb1 Hb2) as Hp.
  apply precedes_fmap_inv in Hp as ([a' ca] & [b' cb] & Ha' & Hb' & Hp).
  cbn [fst] in Ha', Hb'. subst a' b'.
  apply (sorted_stable sort_key) in Hp.
  - apply (precedes_fmap fst) in Hp. exact Hp.
  - unfold sort_key. cbn [fst]. lia.
Qed.

Lemma summarize_ties_first_occurrence_witness :
  precedes (lit "zeta") (lit "alpha")
    [(lit "Very likely", 1); (lit "zeta", 2); (lit "alpha", 1)].*1.
Proof.
  apply (summarize_ties_first_occurrence
           [q29_row "R_1" "zeta"; q29_row "R_2" "alpha";
            q29_row "R_3" "Very likely"; q29_row "R_4" "zeta"]
           (lit "Q29")
           [(lit "Very likely", 1); (lit "zeta", 2); (lit "alpha", 1)]
           4 (lit "zeta") (lit "alpha") 0 (q29_row "R_1" "zeta")).
  - vm_compute. reflexivity.
  - done.
  - done.
  - vm_compute. reflexivity.
  - reflexivity.
  - vm_compute. reflexivity.
  - intros j rb Hj. lia.
  - split; [done |]. exists (q29_row "R_2" "alpha").
    split; [set_solver | vm_compute; reflexivity].
Defined.

(** ** The renderer's arithmetic *)

Lemma true_div_Ok (a b : Z) : 1 ≤ a ≤ b → ∃ f, true_div a b = Ok f.
Proof.
  intros Hab. unfold true_div.
  rewrite decide_False by lia. rewrite decide_False by lia.
  assert (Hbig : 3 ≤ 2 ^ 1025 - 2 ^ 971) by (by vm_compute).
  destruct (Z.leb_spec ((2 ^ 1025 - 2 ^ 971) * Z.abs b) (2 * Z.abs a))
    as [Hle | _].
  - exfalso. revert Hle Hbig. generalize (2 ^ 1025 - 2 ^ 971). nia.
  - destruct (SFdiv_core_binary _ _ _ _ _ _) as [[m e] l]. eauto.
Qed.

Lemma true_div_zero (a : Z) : true_div a 0 = Raise ZeroDivisionError.
Proof. done. Qed.

Lemma segment_pct_zero (count : Z) : segment_pct count 0 = Ok (Int 0).
Proof. done. Qed.

Lemma segment_width_zero (count : Z) : segment_width count 0 = Ok (Int 0).
Proof. done. Qed.

Lemma segment_pct_Ok (count total : Z) :
  1 ≤ count ≤ total → ∃ f, segment_pct count total = Ok (Float f).
Proof.
  intros H. unfold segment_pct. rewrite decide_False by lia.
  destruct (true_div_Ok _ _ H) as (f & Hf). simpl. rewrite Hf. simpl. eauto.
Qed.

Lemma segment_width_Ok (count total : Z) :
  1 ≤ count ≤ total → ∃ f, segment_width count total = Ok (Float f).
Proof.
  intros H. unfold segment_width, proportional_width.
  rewrite decide_False by lia.
  destruct (true_div_Ok _ _ H) as (f & Hf). simpl. rewrite Hf. simpl.
  unfold py_max. destruct (num_gt _ _); eauto.
Qed.

(** A width is the int 0 or a float. *)
Lemma segment_width_shape (count total : Z) (seg_w : num) :
  segment_width count total = Ok seg_w →
  seg_w = Int 0 ∨ ∃ f, seg_w = Float f.
Proof.
  unfold segment_width, proportional_width. case_decide.
  - intros [= <-]. auto.
  - unfold num_truediv. destruct (true_div count total) as [f|]; simpl;
      [| discriminate].
    intros [= <-]. right. unfold py_max. destruct (num_gt _ _); eauto.
Qed.

Lemma segment_labels_Ok (x : num) (y : Z) (seg_w pct : num) (text : str) :
  seg_w = Int 0 ∨ (∃ f, seg_w = Float f) →
  ∃ labels, segment_labels x y seg_w pct text = Ok labels
            ∧ (length labels = 1 ∨ length labels = 2)%nat.
Proof.
  unfold segment_labels. intros [-> | (f & ->)].
  - eexists. split; [reflexivity | auto].
  - destruct (num_gt (Float f) (Int 115)).
    + unfold num_truediv.
      replace (PrimFloat.eqb (to_float (Int 2)) 0) with false
        by (by vm_compute).
      eexists. split; [reflexivity | auto].
    + eexists. split; [reflexivity | auto].
Qed.

(** ** The segment loop *)

Lemma segment_Ok_inv (y total : Z) (parts : list str) (x : num) (text : str)
    (count : Z) (parts' : list str) (x' : num) :
  segment y total (parts, x) (text, count) = Ok (parts', x') ↔
  ∃ pct seg_w labels,
    segment_pct count total = Ok pct
    ∧ segment_width count total = Ok seg_w
    ∧ segment_labels x y seg_w pct text = Ok labels
    ∧ parts' = parts ++ bar_rect x y seg_w (segment_color text) :: labels
    ∧ x' = num_add x seg_w.
Proof.
  unfold segment. rewrite bind_Ok. split.
  - intros (pct & Hpct & (seg_w & Hw & (labels & Hl & [= <- <-])%bind_Ok)%bind_Ok).
    exists pct, seg_w, labels. split_and!; try done.
    by rewrite <- app_assoc.
  - intros (pct & seg_w & labels & Hpct & Hw & Hl & -> & ->).
    exists pct. split; [done |]. apply bind_Ok. exists seg_w.
    split; [done |]. apply bind_Ok. exists labels. split; [done |].
    by rewrite <- app_assoc.
Qed.

Lemma segment_succeeds (y total : Z) (parts : list str) (x : num)
    (text : str) (count : Z) :
  total = 0 ∨ 1 ≤ count ≤ total →
  ∃ segs x', segment y total (parts, x) (text, count) = Ok (parts ++ segs, x')
             ∧ segs ≠ [].
Proof.
  intros Hct.
  assert (∃ pct, segment_pct count total = Ok pct) as (pct & Hpct).
  { destruct Hct as [-> | H]; [by exists (Int 0) |].
    destruct (segment_pct_Ok _ _ H) as (f & Hf). eauto. }
  assert (∃ seg_w, segment_width count total = Ok seg_w) as (seg_w & Hw).
  { destruct Hct as [-> | H]; [by exists (Int 0) |].
    destruct (segment_width_Ok _ _ H) as (f & Hf). eauto. }
  destruct (segment_labels_Ok x y seg_w pct text) as (labels & Hl & _).
  { by eapply segment_width_shape. }
  do 2 eexists. split; [| shelve].
  apply segment_Ok_inv. exists pct, seg_w, labels. split_and!; done.
  Unshelve. done.
Qed.

Lemma for_each_segment_succeeds (y total : Z) (entries : counter)
    (parts : list str) (x : num) :
  total = 0 ∨ Forall (λ kv, 1 ≤ kv.2 ≤ total) entries →
  ∃ segs x', for_each (segment y total) entries (parts, x)
             = Ok (parts ++ segs, x')
             ∧ (segs = [] ↔ entries = []).
Proof.
  intros Hct. revert parts x.
  induction entries as [|[text count] entries IH]; intros parts x.
  - exists [], x. by rewrite app_nil_r.
  - destruct (segment_succeeds y total parts x text count)
      as (segs & x1 & Hseg & Hne).
    { destruct Hct as [? | Hall]; [by left | right].
      by apply Forall_cons in Hall as [? _]. }
    destruct IH with (parts := parts ++ segs) (x := x1)
      as (segs' & x2 & Hrest & _).
    { destruct Hct as [? | Hall]; [by left | right].
      by apply Forall_cons in Hall as [_ ?]. }
    exists (segs ++ segs'), x2. split.
    + cbn [for_each]. rewrite Hseg. simpl. by rewrite app_assoc.
    + split; [| done]. by intros [-> _]%app_eq_nil.
Qed.

(** ** Rounding to nearest *)

Lemma located_bounds (a U m : Z) (l : location) :
  0 < U → located a U m l → m * U ≤ a < (m + 1) * U.
Proof. destruct l; simpl; nia. Qed.

Lemma record_of_loc (m : Z) (l : location) :
  shr_m (shr_record_of_loc m l) = m
  ∧ loc_of_shr_record (shr_record_of_loc m l) = l.
Proof. by destruct l as [|[| |]]. Qed.

Lemma pos_xI_div2 (p : positive) : Z.pos p~1 / 2 = Z.pos p.
Proof. symmetry. apply Z.div_unique with (r := 1); lia. Qed.

Lemma pos_xO_div2 (p : positive) : Z.pos p~0 / 2 = Z.pos p.
Proof. symmetry. apply Z.div_unique with (r := 0); lia. Qed.

Lemma shr_1_located (a U : Z) (mrs : shr_record) :
  0 < U → 0 ≤ shr_m mrs →
  located a U (shr_m mrs) (loc_of_shr_record mrs) →
  shr_m (shr_1 mrs) = shr_m mrs / 2
  ∧ located a (2 * U) (shr_m (shr_1 mrs)) (loc_of_shr_record (shr_1 mrs)).
Proof.
  intros HU Hm. destruct mrs as [m r s].
  cbn [shr_m] in Hm. destruct m as [|p|p]; [| | lia].
  - destruct r, s; cbn [shr_1 shr_m shr_r shr_s loc_of_shr_record located orb];
      intros H; (split; [done |]);
      rewrite ?Z.compare_lt_iff, ?Z.compare_gt_iff, ?Z.compare_eq_iff in *;
      lia.
  - destruct p as [p|p|]; destruct r, s;
      cbn [shr_1 shr_m shr_r shr_s loc_of_shr_record located orb];
      rewrite ?pos_xI_div2, ?pos_xO_div2;
      intros H; (split; [done |]);
      rewrite ?Z.compare_lt_iff, ?Z.compare_gt_iff, ?Z.compare_eq_iff in *;
      nia.
Qed.

Lemma pow2_pos (n : Z) : 0 ≤ n → 0 < 2 ^ n.
Proof. intros. apply Z.pow_pos_nonneg; lia. Qed.

Lemma pow2_xI (p : positive) :
  2 ^ Z.pos p~1 = 2 ^ Z.pos p * (2 ^ Z.pos p * 2).
Proof.
  replace (Z.pos p~1) with (Z.pos p + Z.pos p + 1) by lia.
  rewrite !Z.pow_add_r by lia. change (2 ^ 1) with 2. ring.
Qed.

Lemma pow2_xO (p : positive) : 2 ^ Z.pos p~0 = 2 ^ Z.pos p * 2 ^ Z.pos p.
Proof.
  replace (Z.pos p~0) with (Z.pos p + Z.pos p) by lia.
  by rewrite Z.pow_add_r by lia.
Qed.

Lemma iter_pos_shr_1_located (a : Z) (p : positive) (U : Z)
    (mrs : shr_record) :
  0 < U → 0 ≤ shr_m mrs →
  located a U (shr_m mrs) (loc_of_shr_record mrs) →
  shr_m (SpecFloat.iter_pos shr_1 p mrs) = shr_m mrs / 2 ^ Z.pos p
  ∧ located a (2 ^ Z.pos p * U) (shr_m (SpecFloat.iter_pos shr_1 p mrs))
      (loc_of_shr_record (SpecFloat.iter_pos shr_1 p mrs)).
Proof.
  revert U mrs.
  assert (Hstep : ∀ U mrs, 0 < U → 0 ≤ shr_m mrs →
    located a U (shr_m mrs) (loc_of_shr_record mrs) →
    0 ≤ shr_m (shr_1 mrs)).
  { intros U mrs HU Hm H.
    destruct (shr_1_located a U mrs HU Hm H) as [-> _].
    apply Z.div_pos; lia. }
  induction p as [p IH|p IH|]; intros U mrs HU Hm H; cbn [SpecFloat.iter_pos].
  - pose proof (pow2_pos (Z.pos p) ltac:(lia)) as Hp.
    destruct (shr_1_located a U mrs HU Hm H) as [E1 L1].
    pose proof (Hstep U mrs HU Hm H) as P1.
    destruct (IH (2 * U) (shr_1 mrs)) as [E2 L2]; [lia | done | done |].
    assert (P2 : 0 ≤ shr_m (SpecFloat.iter_pos shr_1 p (shr_1 mrs))).
    { rewrite E2. apply Z.div_pos; lia. }
    destruct (IH (2 ^ Z.pos p * (2 * U)) (SpecFloat.iter_pos shr_1 p (shr_1 mrs)))
      as [E3 L3]; [nia | done | done |].
    split.
    + rewrite E3, E2, E1, !Z.div_div by lia. f_equal.
      rewrite pow2_xI. ring.
    + replace (2 ^ Z.pos p~1 * U)
        with (2 ^ Z.pos p * (2 ^ Z.pos p * (2 * U))); [done |].
      rewrite pow2_xI. ring.
  - pose proof (pow2_pos (Z.pos p) ltac:(lia)) as Hp.
    destruct (IH U mrs) as [E2 L2]; [lia | done | done |].
    assert (P2 : 0 ≤ shr_m (SpecFloat.iter_pos shr_1 p mrs)).
    { rewrite E2. apply Z.div_pos; lia. }
    destruct (IH (2 ^ Z.pos p * U) (SpecFloat.iter_pos shr_1 p mrs))
      as [E3 L3]; [nia | done | done |].
    split.
    + rewrite E3, E2, !Z.div_div by lia. f_equal.
      rewrite pow2_xO. ring.
    + replace (2 ^ Z.pos p~0 * U)
        with (2 ^ Z.pos p * (2 ^ Z.pos p * U)); [done |].
      rewrite pow2_xO. ring.
  - destruct (shr_1_located a U mrs HU Hm H) as [E1 L1].
    change (2 ^ 1) with 2. done.
Qed.

Lemma shr_located (a U m : Z) (l : location) (e n : Z)
    (mrs : shr_record) (e' : Z) :
  0 < U → 0 ≤ m → located a U m l → 0 ≤ n →
  shr (shr_record_of_loc m l) e n = (mrs, e') →
  e' = e + n ∧ shr_m mrs = m / 2 ^ n
  ∧ located a (2 ^ n * U) (shr_m mrs) (loc_of_shr_record mrs).
Proof.
  intros HU Hm H Hn. destruct (record_of_loc m l) as [Em El].
  destruct n as [|p|p]; [| | lia]; cbn [shr]; intros [= <- <-].
  - rewrite Em, El, Z.div_1_r, Z.add_0_r, Z.pow_0_r, Z.mul_1_l. done.
  - split; [done |]. rewrite <- Em at 2.
    apply iter_pos_shr_1_located; [done | by rewrite Em | by rewrite Em, El].
Qed.

Lemma digits2_pos_spec (p : positive) :
  2 ^ (Z.pos (digits2_pos p) - 1) ≤ Z.pos p < 2 ^ Z.pos (digits2_pos p).
Proof.
  induction p as [p IH|p IH|]; cbn [digits2_pos].
  - rewrite Pos2Z.inj_succ, (Pos2Z.inj_xI p).
    replace (Z.succ (Z.pos (digits2_pos p)) - 1)
      with (Z.succ (Z.pos (digits2_pos p) - 1)) by lia.
    rewrite !Z.pow_succ_r by lia. lia.
  - rewrite Pos2Z.inj_succ, (Pos2Z.inj_xO p).
    replace (Z.succ (Z.pos (digits2_pos p)) - 1)
      with (Z.succ (Z.pos (digits2_pos p) - 1)) by lia.
    rewrite !Z.pow_succ_r by lia. lia.
  - done.
Qed.

Lemma Zdigits2_spec (m : Z) :
  0 < m → 2 ^ (Zdigits2 m - 1) ≤ m < 2 ^ Zdigits2 m.
Proof. destruct m as [|p|p]; [lia | | lia]. intros _. apply digits2_pos_spec. Qed.

Lemma Zdigits2_unique (m d : Z) :
  0 < m → 2 ^ (d - 1) ≤ m < 2 ^ d → Zdigits2 m = d.
Proof.
  intros Hm [H1 H2]. destruct (Zdigits2_spec m Hm) as [H3 H4].
  assert (0 < Zdigits2 m) by (destruct m; simpl; lia).
  destruct (Z.le_gt_cases d 0) as [Hd|Hd].
  { assert (2 ^ d ≤ 1); [| lia].
    destruct d as [|p|p]; [done | lia |].
    by rewrite Z.pow_neg_r. }
  destruct (Z.lt_trichotomy (Zdigits2 m) d) as [Hlt|[Heq|Hgt]]; [| done |].
  - pose proof (Z.pow_le_mono_r 2 (Zdigits2 m) (d - 1)). lia.
  - pose proof (Z.pow_le_mono_r 2 d (Zdigits2 m - 1)). lia.
Qed.

Lemma round_nearest_even_located (a U m : Z) (l : location) :
  0 < U → located a U m l →
  (round_nearest_even m l = m ∨ round_nearest_even m l = m + 1)
  ∧ 2 * Z.abs (round_nearest_even m l * U - a) ≤ U.
Proof.
  intros HU. destruct l as [|[| |]]; cbn [located round_nearest_even];
    rewrite ?Z.compare_lt_iff, ?Z.compare_gt_iff, ?Z.compare_eq_iff;
    intros H; try destruct (Z.even m); (split; [auto |]); lia.
Qed.

Lemma fexp_normal (e : Z) : -1021 ≤ e → fexp prec emax e = e - 53.
Proof. unfold fexp, emin, prec, emax. lia. Qed.

(** Rounding a positive number [a / U * 2 ^ ex] that [mx] and [lx] locate
    with at least 53 digits, in the range of the normal doubles: the result
    is a valid finite double of 53 digits within half a unit in the last
    place. *)
Lemma binary_round_aux_normal (s : bool) (a U mx ex : Z) (lx : location) :
  0 < U → 0 < mx → located a U mx lx →
  53 ≤ Zdigits2 mx → -1021 ≤ Zdigits2 mx + ex → Zdigits2 mx + ex ≤ 1023 →
  ∃ (M : positive) (E : Z),
    binary_round_aux prec emax s mx ex lx = S754_finite s M E
    ∧ valid_binary (S754_finite s M E) = true
    ∧ 2 ^ 52 ≤ Z.pos M < 2 ^ 53
    ∧ Zdigits2 mx + ex - 53 ≤ E ≤ Zdigits2 mx + ex - 52
    ∧ Z.abs (Z.pos M * 2 ^ (E - ex) * U - a) * 2 ^ 53 ≤ a.
Proof.
  intros HU Hmx Hl Hd Hlo Hhi.
  destruct (Zdigits2_spec mx Hmx) as [D1 D2].
  set (d := Zdigits2 mx) in *.
  unfold binary_round_aux, shr_fexp. fold d.
  rewrite fexp_normal by lia.
  replace (d + ex - 53 - ex) with (d - 53) by lia.
  destruct (shr (shr_record_of_loc mx lx) ex (d - 53)) as [mrs1 e1] eqn:S1.
  apply (shr_located a U) in S1 as (-> & Em1 & L1); [| done | lia | done | lia].
  pose proof (pow2_pos (d - 53) ltac:(lia)) as Hn.
  set (n := d - 53) in *. set (U1 := 2 ^ n * U) in *.
  set (m1 := shr_m mrs1) in *.
  assert (HU1 : 0 < U1) by (unfold U1; nia).
  assert (B1 : 2 ^ 52 ≤ m1 < 2 ^ 53).
  { rewrite Em1. split.
    - apply Z.div_le_lower_bound; [done |].
      replace (d - 1) with (n + 52) in D1 by (unfold n; lia).
      rewrite Z.pow_add_r in D1 by lia. done.
    - apply Z.div_lt_upper_bound; [done |].
      replace d with (n + 53) in D2 by (unfold n; lia).
      rewrite Z.pow_add_r in D2 by lia. done. }
  destruct (round_nearest_even_located a U1 m1 _ HU1 L1) as [Hm2 Hr].
  apply located_bounds in L1 as [L1 _]; [| done].
  set (m2 := round_nearest_even m1 (loc_of_shr_record mrs1)) in *.
  assert (HmU : 2 ^ 52 * U1 ≤ m1 * U1) by nia.
  destruct (Z.eq_dec m2 (2 ^ 53)) as [Heq|Hne].
  - rewrite Heq. change (Zdigits2 (2 ^ 53)) with 54.
    rewrite fexp_normal by lia.
    replace (54 + (ex + n) - 53 - (ex + n)) with 1 by lia.
    cbn [shr SpecFloat.iter_pos shr_record_of_loc].
    change (shr_m (shr_1 _)) with (Z.pos 4503599627370496).
    cbv iota beta.
    replace (ex + n + 1 <=? emax - prec) with true
      by (symmetry; apply Z.leb_le; unfold emax, prec, n; lia).
    exists 4503599627370496%positive, (ex + n + 1).
    split_and!; [done | | done | done | unfold n; lia | unfold n; lia |].
    + unfold SpecFloat.valid_binary, bounded, canonical_mantissa.
      change (Z.pos (digits2_pos 4503599627370496)) with 53.
      rewrite fexp_normal by (unfold n; lia).
      apply andb_true_intro. split; [apply Z.eqb_eq; lia |].
      apply Z.leb_le. unfold emax, prec, n. lia.
    + replace (ex + n + 1 - ex) with (n + 1) by lia.
      rewrite Z.pow_add_r by (unfold n; lia). change (2 ^ 1) with 2.
      replace (Z.pos 4503599627370496 * (2 ^ n * 2) * U)
        with (m2 * U1) by (rewrite Heq; unfold U1; change (2 ^ 53) with (4503599627370496 * 2); ring).
      lia.
  - assert (B2 : 2 ^ 52 ≤ m2 < 2 ^ 53) by lia.
    rewrite (Zdigits2_unique m2 53) by lia.
    rewrite fexp_normal by (unfold n; lia).
    replace (53 + (ex + n) - 53 - (ex + n)) with 0 by lia.
    cbn [shr shr_record_of_loc shr_m].
    destruct m2 as [|M|M] eqn:EM; [lia | | lia].
    replace (ex + n <=? emax - prec) with true
      by (symmetry; apply Z.leb_le; unfold emax, prec, n; lia).
    exists M, (ex + n).
    split_and!; [done | | lia | lia | unfold n; lia | unfold n; lia |].
    + unfold SpecFloat.valid_binary, bounded, canonical_mantissa.
      change (Z.pos (digits2_pos M)) with (Zdigits2 (Z.pos M)).
      rewrite (Zdigits2_unique (Z.pos M) 53) by lia.
      rewrite fexp_normal by (unfold n; lia).
      apply andb_true_intro. split; [apply Z.eqb_eq; lia |].
      apply Z.leb_le. unfold emax, prec, n. lia.
    + replace (ex + n - ex) with n by lia.
      replace (Z.pos M * 2 ^ n * U) with (Z.pos M * U1)
        by (unfold U1; ring).
      lia.
Qed.

Lemma close_ratio (N a U : Z) :
  0 < U → Z.abs (N * U - a) * 2 ^ 53 ≤ a →
  close (inject_Z a / inject_Z U) (inject_Z N).
Proof.
  intros HU H. destruct U as [|p|p]; [lia | | lia].
  unfold close, unit_roundoff, Qle, Qdiv, Qinv, Qmult, Qminus, Qplus, Qopp,
    inject_Z. cbn [Qnum Qden].
  rewrite !Pos2Z.inj_mul. change (2 ^ 53) with 9007199254740992 in H. lia.
Qed.

Lemma close_scaled (N a U : Z) (P : Q) :
  0 < U → (0 < P)%Q → Z.abs (N * U - a) * 2 ^ 53 ≤ a →
  close (inject_Z a / inject_Z U * P) (inject_Z N * P).
Proof.
  intros HU HP H. destruct (close_ratio N a U HU H) as [H1 H2].
  unfold close. rewrite !Qmult_assoc. split.
  - apply Qmult_le_compat_r; [done | by apply Qlt_le_weak].
  - apply Qmult_le_compat_r; [done | by apply Qlt_le_weak].
Qed.

Lemma Qpower2_pos (e : Z) : (0 < 2 ^ e)%Q.
Proof. by apply Qpower_0_lt. Qed.

Lemma Qpower2_split (k e : Z) :
  0 ≤ k → (inject_Z (2 ^ k) * 2 ^ e == 2 ^ (k + e))%Q.
Proof.
  intros Hk. rewrite Qpower_plus by done.
  by rewrite Zpower_Qpower by done.
Qed.

(** The rational number a positive finite double of mantissa [m] and
    exponent [e] stands for. *)
Lemma float_exact_positive (f : float) (m : positive) (e : Z) :
  Prim2SF f = S754_finite false m e →
  (float_exact f == inject_Z (Z.pos m) * 2 ^ e)%Q.
Proof. unfold float_exact. intros ->. by rewrite Qmult_1_l. Qed.

Lemma binary_round_aux_close (s : bool) (a U mx ex : Z) (lx : location) :
  0 < U → 0 < mx → located a U mx lx →
  53 ≤ Zdigits2 mx → -1021 ≤ Zdigits2 mx + ex → Zdigits2 mx + ex ≤ 1023 →
  ∃ (M : positive) (E : Z),
    binary_round_aux prec emax s mx ex lx = S754_finite s M E
    ∧ valid_binary (S754_finite s M E) = true
    ∧ 2 ^ 52 ≤ Z.pos M < 2 ^ 53
    ∧ Zdigits2 mx + ex - 53 ≤ E ≤ Zdigits2 mx + ex - 52
    ∧ close (inject_Z a / inject_Z U * 2 ^ ex) (inject_Z (Z.pos M) * 2 ^ E).
Proof.
  intros HU Hmx Hl Hd Hlo Hhi.
  destruct (binary_round_aux_normal s a U mx ex lx)
    as (M & E & -> & Hv & HM & HE & Hc); try done.
  exists M, E. split_and!; try done; try lia.
  assert (Heq : (inject_Z (Z.pos M) * 2 ^ E
                   == inject_Z (Z.pos M * 2 ^ (E - ex)) * 2 ^ ex)%Q).
  { rewrite inject_Z_mult, <- Qmult_assoc, Qpower2_split by lia.
    by replace (E - ex + ex) with E by lia. }
  unfold close. rewrite Heq.
  apply close_scaled; [done | apply Qpower2_pos | done].
Qed.

Lemma new_location_located (t q r : Z) :
  0 < t → 0 ≤ r < t → located (t * q + r) t q (new_location t r).
Proof.
  intros Ht Hr. unfold new_location, new_location_even, new_location_odd.
  destruct (Z.even t) eqn:Ev; destruct (Z.eqb_spec r 0) as [->|Hr0];
    cbn [located]; try lia.
  - split; [lia |]. destruct (Z.compare_spec (2 * r) t).
    + apply Z.compare_eq_iff. lia.
    + apply Z.compare_lt_iff. lia.
    + apply Z.compare_gt_iff. lia.
  - assert (2 * r ≠ t).
    { intros <-. by rewrite Z.even_mul in Ev. }
    split; [lia |]. destruct (Z.compare_spec (2 * r + 1) t).
    + apply Z.compare_lt_iff. lia.
    + apply Z.compare_lt_iff. lia.
    + apply Z.compare_gt_iff. lia.
Qed.

Lemma Zdigits2_bounds (m lo hi : Z) :
  0 ≤ lo → 2 ^ lo ≤ m < 2 ^ hi → lo < Zdigits2 m ≤ hi.
Proof.
  intros Hlo [H1 H2].
  assert (Hm : 0 < m) by (pose proof (pow2_pos lo Hlo); lia).
  destruct (Zdigits2_spec m Hm) as [H3 H4].
  assert (0 < Zdigits2 m) by (destruct m; simpl; lia).
  split.
  - apply (Z.pow_lt_mono_r_iff 2); [lia | lia | lia].
  - assert (0 ≤ hi).
    { destruct hi as [|p|p]; [done | lia |]. rewrite Z.pow_neg_r in H2; lia. }
    assert (Zdigits2 m - 1 < hi); [| lia].
    apply (Z.pow_lt_mono_r_iff 2); [lia | lia | lia].
Qed.

(** [c / t] for [0 < c ≤ t]: the quotient rounded once. *)
Lemma true_div_close (c t : Z) :
  0 < c ≤ t → t < 2 ^ 1000 →
  ∃ (f : float) (M : positive) (E : Z),
    true_div c t = Ok f
    ∧ Prim2SF f = S754_finite false M E
    ∧ 2 ^ 52 ≤ Z.pos M < 2 ^ 53
    ∧ -1052 ≤ E ≤ -51
    ∧ close (inject_Z c / inject_Z t) (float_exact f).
Proof.
  intros Hc Ht. unfold true_div.
  rewrite decide_False by lia. rewrite decide_False by lia.
  assert (Hbig : 3 ≤ 2 ^ 1025 - 2 ^ 971) by (by vm_compute).
  destruct (Z.leb_spec ((2 ^ 1025 - 2 ^ 971) * Z.abs t) (2 * Z.abs c))
    as [Hle | _].
  { exfalso. revert Hle Hbig. generalize (2 ^ 1025 - 2 ^ 971). nia. }
  rewrite !Z.abs_eq by lia.
  replace (c <? 0) with false by (symmetry; apply Z.ltb_ge; lia).
  replace (t <? 0) with false by (symmetry; apply Z.ltb_ge; lia).
  cbn [xorb].
  destruct (Zdigits2_spec c) as [C1 C2]; [lia |].
  destruct (Zdigits2_spec t) as [T1 T2]; [lia |].
  assert (Hd1 : 0 < Zdigits2 c) by (destruct c; simpl; lia).
  assert (Hd2 : 0 < Zdigits2 t) by (destruct t; simpl; lia).
  assert (Hd12 : Zdigits2 c ≤ Zdigits2 t).
  { assert (Zdigits2 c - 1 < Zdigits2 t); [| lia].
    apply (Z.pow_lt_mono_r_iff 2); lia. }
  assert (Hd2' : Zdigits2 t ≤ 1000).
  { assert (Zdigits2 t - 1 < 1000); [| lia].
    apply (Z.pow_lt_mono_r_iff 2); lia. }
  unfold SFdiv_core_binary.
  set (d1 := Zdigits2 c) in *. set (d2 := Zdigits2 t) in *.
  rewrite fexp_normal by lia.
  replace (Z.min (d1 + 0 - (d2 + 0) - 53) (0 - 0)) with (d1 - d2 - 53) by lia.
  replace (0 - 0 - (d1 - d2 - 53)) with (53 + d2 - d1) by lia.
  set (s := 53 + d2 - d1) in *.
  assert (Hs : 0 < s) by (unfold s; lia).
  destruct s as [|ps|ps] eqn:Es; [lia | | lia]. rewrite <- Es.
  rewrite Z.shiftl_mul_pow2 by lia.
  pose proof (Z_div_mod (c * 2 ^ s) t ltac:(lia)) as Hdiv.
  destruct (Z.div_eucl (c * 2 ^ s) t) as [q r]. destruct Hdiv as [Hqr Hr].
  assert (HA : 0 < 2 ^ s) by (apply pow2_pos; lia).
  assert (HB : 0 < 2 ^ (d2 - 1)) by (apply pow2_pos; lia).
  assert (HP : 2 ^ (d1 - 1) * 2 ^ s = 2 ^ 53 * 2 ^ (d2 - 1)).
  { rewrite <- !Z.pow_add_r by lia. f_equal. lia. }
  assert (HP' : 2 ^ d1 = 2 * 2 ^ (d1 - 1)).
  { rewrite <- (Z.pow_succ_r 2) by lia. f_equal. lia. }
  assert (HT' : 2 ^ d2 = 2 * 2 ^ (d2 - 1)).
  { rewrite <- (Z.pow_succ_r 2) by lia. f_equal. lia. }
  assert (Hq : 2 ^ 52 ≤ q < 2 ^ 54).
  { change (2 ^ 52) with 4503599627370496.
    change (2 ^ 54) with 18014398509481984.
    change (2 ^ 53) with 9007199254740992 in HP.
    revert HP Hqr Hr C1 C2 T1 T2 HP' HT' HA HB.
    generalize (2 ^ s) (2 ^ (d1 - 1)) (2 ^ (d2 - 1)) (2 ^ d1) (2 ^ d2).
    intros A P1 B P1' B'. intros. subst P1' B'. nia. }
  destruct (Zdigits2_bounds q 52 54 ltac:(lia) Hq) as [Q1 Q2].
  destruct (binary_round_aux_close false (c * 2 ^ s) t q (d1 - d2 - 53)
              (new_location t r))
    as (M & E & -> & Hv & HM & HE & Hcl); try lia.
  { rewrite Hqr. apply new_location_located; lia. }
  apply Prim2SF_SF2Prim in Hv as HSF.
  eexists _, M, E. split_and!; try done; try lia.
  assert (Hq' : (inject_Z (c * 2 ^ s) / inject_Z t * 2 ^ (d1 - d2 - 53)
                == inject_Z c / inject_Z t)%Q).
  { rewrite inject_Z_mult. unfold Qdiv.
    rewrite <- (Qmult_assoc (inject_Z c)), (Qmult_comm (inject_Z (2 ^ s))),
      <- !Qmult_assoc, Qpower2_split by lia.
    replace (s + (d1 - d2 - 53)) with 0 by lia.
    change (2 ^ 0)%Q with 1%Q. by rewrite !Qmult_1_r. }
  unfold close in *. rewrite (float_exact_positive _ _ _ HSF).
  by rewrite Hq' in Hcl.
Qed.

Lemma unit_roundoff_lt_1 : (0 < 1 - unit_roundoff)%Q.
Proof. done. Qed.

(** [chart_width * (c / t)] for [0 < c ≤ t]: the exact width rounded
    twice. *)
Lemma proportional_width_close (c t : Z) :
  0 < c ≤ t → t < 2 ^ 1000 →
  ∃ w : float,
    proportional_width c t = Ok (Float w)
    ∧ ((1 - unit_roundoff) ^ 2 * exact_width c t <= float_exact w
       ∧ float_exact w <= (1 + unit_roundoff) ^ 2 * exact_width c t)%Q.
Proof.
  intros Hc Ht.
  destruct (true_div_close c t Hc Ht) as (f & M & E & Hf & HSF & HM & HE & Hcl).
  unfold proportional_width. cbn [num_truediv]. rewrite Hf.
  cbn [fmap result_fmap mbind result_bind num_mul to_float].
  eexists. split; [done |].
  assert (H780 : Prim2SF (float_of_int chart_width)
                 = S754_finite false 6860952557322240 (-43))
    by (vm_compute; reflexivity).
  assert (Hmx : 2 ^ 104 ≤ Z.pos (6860952557322240 * M) < 2 ^ 106).
  { rewrite Pos2Z.inj_mul. change (2 ^ 104) with (2 ^ 52 * 2 ^ 52).
    change (2 ^ 106) with (2 ^ 53 * 2 ^ 53). clear -HM.
    change (2 ^ 52) with 4503599627370496 in *.
    change (2 ^ 53) with 9007199254740992 in *. nia. }
  destruct (Zdigits2_bounds _ 104 106 ltac:(lia) Hmx) as [D1 D2].
  destruct (binary_round_aux_close false (Z.pos (6860952557322240 * M)) 1
              (Z.pos (6860952557322240 * M)) (-43 + E) loc_Exact)
    as (M' & E' & Hw & _ & _ & _ & Hclw); try lia.
  { cbn [located]. lia. }
  assert (HSFw : Prim2SF (float_of_int chart_width * f)
                 = S754_finite false M' E').
  { by rewrite mul_spec, H780, HSF, <- Hw. }
  assert (Hv : (inject_Z (Z.pos (6860952557322240 * M)) / inject_Z 1
                * 2 ^ (-43 + E)
                == 780 * (inject_Z (Z.pos M) * 2 ^ E))%Q).
  { rewrite Pos2Z.inj_mul, inject_Z_mult, Qpower_plus by done.
    unfold Qdiv. change (/ inject_Z 1)%Q with 1%Q.
    assert (H : (780 == inject_Z 6860952557322240 * 2 ^ (-43))%Q) by done.
    rewrite H. ring. }
  unfold close in *. rewrite Hv in Hclw.
  rewrite (float_exact_positive _ _ _ HSFw).
  rewrite (float_exact_positive _ _ _ HSF) in Hcl.
  unfold exact_width. change (inject_Z chart_width) with 780%Q.
  revert Hcl Hclw.
  generalize (inject_Z c / inject_Z t)%Q (inject_Z (Z.pos M) * 2 ^ E)%Q
    (inject_Z (Z.pos M') * 2 ^ E')%Q.
  intros v x w. unfold unit_roundoff.
  change (?a ^ 2)%Q with (a * a)%Q. intros [H1 H2] [H3 H4].
  split; lra.
Qed.

(** ** Reading the elements *)

Local Arguments before_suffix : simpl never.

Lemma take_until_skip (c : N) (v rest : str) :
  Forall (λ a, a ≠ c) v → take_until c (v ++ rest) = v ++ take_until c rest.
Proof.
  induction 1 as [|a v Ha _ IH]; [done |]. cbn [app take_until].
  destruct (N.eqb_spec a c); [done |]. by rewrite IH.
Qed.

Lemma find_after_skip (c : N) (pat v rest : str) :
  Forall (λ a, a ≠ c) v →
  find_after (c :: pat) (v ++ rest) = find_after (c :: pat) rest.
Proof.
  induction 1 as [|a v Ha _ IH]; [done |].
  cbn [app]. rewrite <- IH. cbn [find_after after_prefix].
  by destruct (N.eqb_spec c a).
Qed.

Lemma take_until_quote (v rest : str) :
  plain v → take_until 34 (v ++ rest) = v ++ take_until 34 rest.
Proof.
  intros H. apply take_until_skip. eapply Forall_impl; [done |]. by intros a (? & ? & ?).
Qed.

Lemma take_until_gt (v rest : str) :
  plain v → take_until 62 (v ++ rest) = v ++ take_until 62 rest.
Proof.
  intros H. apply take_until_skip. eapply Forall_impl; [done |]. by intros a (? & ? & ?).
Qed.

Lemma find_after_space (pat v rest : str) :
  plain v →
  find_after (32%N :: pat) (v ++ rest) = find_after (32%N :: pat) rest.
Proof.
  intros H. apply find_after_skip. eapply Forall_impl; [done |]. by intros a (? & ? & ?).
Qed.

Lemma find_after_gt (v rest : str) :
  plain v → find_after [62%N] (v ++ rest) = find_after [62%N] rest.
Proof.
  intros H. apply find_after_skip. eapply Forall_impl; [done |]. by intros a (? & ? & ?).
Qed.

Lemma after_prefix_app (p s : str) : after_prefix p (p ++ s) = Some s.
Proof.
  induction p as [|a p IH]; [done |]. cbn [app after_prefix].
  by rewrite N.eqb_refl.
Qed.

Lemma before_suffix_app (p s : str) : before_suffix p (s ++ p) = Some s.
Proof.
  unfold before_suffix. rewrite reverse_app, after_prefix_app.
  cbn. by rewrite reverse_involutive.
Qed.

Lemma plain_app (s t : str) : plain s → plain t → plain (s ++ t).
Proof. apply Forall_app_2. Qed.

Lemma uint_plain (d : Decimal.uint) : plain (lit (NilEmpty.string_of_uint d)).
Proof.
  induction d; cbn; constructor; try done; constructor.
Qed.

Lemma dec_plain (n : N) : plain (dec n).
Proof.
  unfold dec. destruct (N.to_uint n) as [|d|d|d|d|d|d|d|d|d|d];
    [by repeat constructor | ..]; apply uint_plain.
Qed.

Lemma sign_str_plain (b : bool) : plain (sign_str b).
Proof. destruct b; by repeat constructor. Qed.

Lemma fmt_int_plain (z : Z) : plain (fmt_int z).
Proof. apply plain_app; [apply sign_str_plain | apply dec_plain]. Qed.

Lemma fmt_1f_plain (n : num) : plain (fmt_1f n).
Proof.
  unfold fmt_1f, float_1f. destruct (Prim2SF (to_float n)).
  - apply plain_app; [apply sign_str_plain | by repeat constructor].
  - apply plain_app; [apply sign_str_plain | by repeat constructor].
  - by repeat constructor.
  - apply plain_app; [apply sign_str_plain |].
    apply plain_app; [apply dec_plain |].
    apply plain_app; [by repeat constructor | apply dec_plain].
Qed.

Lemma segment_color_plain (text : str) : plain (segment_color text).
Proof.
  unfold segment_color.
  destruct (ORDER !! text) as [r|] eqn:Hr; cbn [from_option id].
  - apply ORDER_range in Hr.
    assert (r = 0 ∨ r = 1 ∨ r = 2 ∨ r = 3 ∨ r = 4) as Hcases by lia.
    destruct Hcases as [-> | [-> | [-> | [-> | ->]]]];
      vm_compute; by repeat constructor.
  - vm_compute; by repeat constructor.
Qed.

Ltac eval_lits :=
  repeat match goal with
  | |- context [lit ?s] =>
      let v := eval vm_compute in (lit s) in change (lit s) with v
  end.

Ltac abstract_plain :=
  repeat match goal with
  | |- context [fmt_1f ?n] =>
      let H := fresh "H" in
      pose proof (fmt_1f_plain n) as H; revert H;
      generalize (fmt_1f n); intros ? H
  | |- context [fmt_int ?z] =>
      let H := fresh "H" in
      pose proof (fmt_int_plain z) as H; revert H;
      generalize (fmt_int z); intros ? H
  | |- context [segment_color ?t] =>
      let H := fresh "H" in
      pose proof (segment_color_plain t) as H; revert H;
      generalize (segment_color t); intros ? H
  end.

Ltac scan :=
  unfold attr, content, open_tag, bar_rect, label_inside_text,
    label_inside_pct, label_outside_pct, font_family, q;
  abstract_plain; eval_lits;
  repeat first
    [ rewrite <- app_assoc
    | rewrite app_nil_r
    | rewrite take_until_gt by assumption
    | rewrite take_until_quote by assumption
    | rewrite find_after_space by assumption
    | rewrite find_after_gt by assumption
    | progress cbn ].

Lemma bar_rect_attr_x (x : num) (y : Z) (seg_w : num) (text : str) :
  attr "x" (bar_rect x y seg_w (segment_color text)) = Some (fmt_1f x).
Proof. by scan. Qed.

Lemma bar_rect_attr_width (x : num) (y : Z) (seg_w : num) (text : str) :
  attr "width" (bar_rect x y seg_w (segment_color text))
  = Some (fmt_1f seg_w).
Proof. by scan. Qed.

Lemma label_inside_text_attr_x (cx : num) (y : Z) (text : str) :
  attr "x" (label_inside_text cx y text) = Some (fmt_1f cx).
Proof. by scan. Qed.

Lemma label_inside_text_anchor (cx : num) (y : Z) (text : str) :
  attr "text-anchor" (label_inside_text cx y text) = Some (lit "middle").
Proof. by scan. Qed.

Lemma label_inside_text_content (cx : num) (y : Z) (text : str) :
  content (label_inside_text cx y text) = Some text.
Proof. scan. apply before_suffix_app. Qed.

Lemma label_inside_pct_attr_x (cx : num) (y : Z) (pct : num) :
  attr "x" (label_inside_pct cx y pct) = Some (fmt_1f cx).
Proof. by scan. Qed.

Lemma label_inside_pct_anchor (cx : num) (y : Z) (pct : num) :
  attr "text-anchor" (label_inside_pct cx y pct) = Some (lit "middle").
Proof. by scan. Qed.

Lemma label_inside_pct_content (cx : num) (y : Z) (pct : num) :
  content (label_inside_pct cx y pct) = Some (fmt_1f pct ++ lit "%").
Proof.
  scan.
  match goal with
  | |- before_suffix ?p (?v ++ ?c :: ?p) = _ =>
      change (v ++ c :: p) with (v ++ [c] ++ p)
  end.
  rewrite app_assoc. apply before_suffix_app.
Qed.

Lemma label_outside_pct_attr_x (lx : num) (y : Z) (pct : num) :
  attr "x" (label_outside_pct lx y pct) = Some (fmt_1f lx).
Proof. by scan. Qed.

Lemma label_outside_pct_anchor (lx : num) (y : Z) (pct : num) :
  attr "text-anchor" (label_outside_pct lx y pct) = None.
Proof. by scan. Qed.

Lemma label_outside_pct_content (lx : num) (y : Z) (pct : num) :
  content (label_outside_pct lx y pct) = Some (fmt_1f pct ++ lit "%").
Proof.
  scan.
  match goal with
  | |- before_suffix ?p (?v ++ ?c :: ?p) = _ =>
      change (v ++ c :: p) with (v ++ [c] ++ p)
  end.
  rewrite app_assoc. apply before_suffix_app.
Qed.

(** ** The claims on [make_svg] *)

(** C5. A summary whose total is 0 has no entries: the segment loop runs no
    iteration and leaves [parts] and the cursor as they were.  The guards
    make the percentage and the width 0 without dividing, for whatever count,
    so that the loop raises on no list of entries when the total is 0. *)
Theorem zero_total_renders_no_segment (rows : list row) (column : str)
    (ordered : counter) :
  summarize rows column = Ok (ordered, 0) →
  ordered = []
  ∧ (∀ y parts x, for_each (segment y 0) ordered (parts, x) = Ok (parts, x))
  ∧ (∀ count, segment_pct count 0 = Ok (Int 0)
              ∧ segment_width count 0 = Ok (Int 0))
  ∧ (∀ entries y parts x,
       ∃ st, for_each (segment y 0) entries (parts, x) = Ok st).
Proof.
  intros Hs.
  assert (Hnil : ordered = []).
  { apply summarize_positive in Hs as [Hpos Hsum].
    pose proof (sum_values_positive _ Hpos).
    destruct ordered; [done | simpl in *; lia]. }
  subst ordered. split_and!; try done.
  intros entries y parts x.
  destruct (for_each_segment_succeeds y 0 entries parts x)
    as (segs & x' & H & _); [by left | eauto].
Qed.

Lemma zero_total_renders_no_segment_witness :
  ([] : counter) = []
  ∧ (∀ y parts x, for_each (segment y 0) [] (parts, x) = Ok (parts, x))
  ∧ (∀ count, segment_pct count 0 = Ok (Int 0)
              ∧ segment_width count 0 = Ok (Int 0))
  ∧ (∀ entries y parts x,
       ∃ st, for_each (segment y 0) entries (parts, x) = Ok st).
Proof.
  apply (zero_total_renders_no_segment
           [q29_row "R_1" ""; q29_row "R_2" "  "] (lit "Q29")).
  vm_compute. reflexivity.
Defined.

(** Entries with a total of 0 do not come from [summarize]; on such an
    entry the loop body divides nothing and draws a bar of width 0 with the
    label 0.0%. *)
Example zero_total_entry :
  segment 170 0 ([], Int 520) (lit "Very likely", 3) =
    Ok ([ bar_rect (Int 520) 170 (Int 0) (lit "#1d7a8c");
          label_outside_pct (Int 526) 170 (Int 0) ],
        Int 520)
  ∧ fmt_1f (Int 0) = lit "0.0"
  ∧ fmt_1f (Int 526) = lit "526.0".
Proof. split_and!; vm_compute; reflexivity. Qed.

(** C7. One iteration of the segment loop appends the bar, a [<rect>] at [x]
    of width [seg_w], and then its labels, which are read back from the
    elements written.  A segment wider than 115 gets two labels, the answer
    text and the percentage, both centred inside it: anchored at their
    middle ([text-anchor] is [middle]) on the middle of the bar,
    [x + seg_w/2].  Any other segment gets one label, the percentage alone,
    outside to its right: with no [text-anchor], so starting at its [x],
    which is 6 units right of the bar's end, [x + seg_w + 6]. *)
Theorem segment_label_placement (y total : Z) (parts : list str) (x : num)
    (text : str) (count : Z) (pct seg_w : num) :
  segment_pct count total = Ok pct →
  segment_width count total = Ok seg_w →
  ∃ bar labels,
    segment y total (parts, x) (text, count)
    = Ok (parts ++ bar :: labels, num_add x seg_w)
    ∧ attr "x" bar = Some (fmt_1f x)
    ∧ attr "width" bar = Some (fmt_1f seg_w)
    ∧ if num_gt seg_w (Int 115) then
        ∃ half l_text l_pct,
          num_truediv seg_w (Int 2) = Ok half
          ∧ labels = [l_text; l_pct]
          ∧ attr "x" l_text = Some (fmt_1f (num_add x half))
          ∧ attr "text-anchor" l_text = Some (lit "middle")
          ∧ content l_text = Some text
          ∧ attr "x" l_pct = Some (fmt_1f (num_add x half))
          ∧ attr "text-anchor" l_pct = Some (lit "middle")
          ∧ content l_pct = Some (fmt_1f pct ++ lit "%")
      else
        ∃ l_pct,
          labels = [l_pct]
          ∧ attr "x" l_pct
            = Some (fmt_1f (num_add (num_add x seg_w) (Int 6)))
          ∧ attr "text-anchor" l_pct = None
          ∧ content l_pct = Some (fmt_1f pct ++ lit "%").
Proof.
  intros Hpct Hw.
  destruct (segment_labels_Ok x y seg_w pct text) as (labels & Hl & _).
  { by eapply segment_width_shape. }
  exists (bar_rect x y seg_w (segment_color text)), labels.
  split; [| split; [apply bar_rect_attr_x |
            split; [apply bar_rect_attr_width |]]].
  { apply segment_Ok_inv. exists pct, seg_w, labels. by split_and!. }
  unfold segment_labels in Hl.
  destruct (num_gt seg_w (Int 115)).
  - destruct (num_truediv seg_w (Int 2)) as [half|] eqn:Hh; [| done].
    injection Hl as <-.
    exists half, (label_inside_text (num_add x half) y text),
      (label_inside_pct (num_add x half) y pct).
    split_and!; [done | done | ..].
    + apply label_inside_text_attr_x.
    + apply label_inside_text_anchor.
    + apply label_inside_text_content.
    + apply label_inside_pct_attr_x.
    + apply label_inside_pct_anchor.
    + apply label_inside_pct_content.
  - injection Hl as <-.
    exists (label_outside_pct (num_add (num_add x seg_w) (Int 6)) y pct).
    split_and!; [done | ..].
    + apply label_outside_pct_attr_x.
    + apply label_outside_pct_anchor.
    + apply label_outside_pct_content.
Qed.

Lemma segment_label_placement_witness :
  (∃ bar l_text l_pct,
     segment 170 8 ([], Int 520) (lit "Very likely", 8)
     = Ok ([bar; l_text; l_pct], Float 1300)
     ∧ attr "x" bar = Some (lit "520.0")
     ∧ attr "width" bar = Some (lit "780.0")
     ∧ attr "x" l_text = Some (lit "910.0")
     ∧ attr "text-anchor" l_text = Some (lit "middle")
     ∧ content l_text = Some (lit "Very likely")
     ∧ attr "x" l_pct = Some (lit "910.0")
     ∧ attr "text-anchor" l_pct = Some (lit "middle")
     ∧ content l_pct = Some (lit "100.0%"))
  ∧ (∃ bar l_pct,
       segment 170 7 ([], Int 520) (lit "Very unlikely", 1)
       = Ok ([bar; l_pct], Float (520 + 780 * (1 / 7)))
       ∧ attr "x" bar = Some (lit "520.0")
       ∧ attr "width" bar = Some (lit "111.4")
       ∧ attr "x" l_pct = Some (lit "637.4")
       ∧ attr "text-anchor" l_pct = None
       ∧ content l_pct = Some (lit "14.3%")).
Proof.
  split.
  - destruct (segment_label_placement 170 8 [] (Int 520) (lit "Very likely")
                8 (Float 100) (Float 780))
      as (bar & labels & Hseg & Hx & Hw & Hl); [by vm_compute.. |].
    change (num_gt (Float 780) (Int 115)) with true in Hl. cbv iota in Hl.
    destruct Hl as (half & l_text & l_pct & Hh & -> & H1 & H2 & H3
                    & H4 & H5 & H6).
    assert (half = Float 390) as -> by (vm_compute in Hh; congruence).
    exists bar, l_text, l_pct. by split_and!.
  - destruct (segment_label_placement 170 7 [] (Int 520)
                (lit "Very unlikely") 1 (Float (1 / 7 * 100))
                (Float (780 * (1 / 7))))
      as (bar & labels & Hseg & Hx & Hw & Hl); [by vm_compute.. |].
    change (num_gt (Float (780 * (1 / 7))) (Int 115)) with false in Hl.
    cbv iota in Hl.
    destruct Hl as (l_pct & -> & H1 & H2 & H3).
    exists bar, l_pct. by split_and!.
Defined.

(** The spec's scenario: all 8 rows answer ["Very likely"].  The one segment
    spans the chart in the deep-positive colour, and both labels sit at its
    middle. *)
Example full_width_segment :
  segment 170 8 ([], Int 520) (lit "Very likely", 8) =
    Ok ([ bar_rect (Int 520) 170 (Float 780) (lit "#1d7a8c");
          label_inside_text (Float 910) 170 (lit "Very likely");
          label_inside_pct (Float 910) 170 (Float 100) ],
        Float 1300).
Proof. vm_compute. reflexivity. Qed.

(** A narrow segment: 1 answer out of 7 is 111.4 units wide, and its
    percentage starts 6 units right of its end. *)
Example narrow_segment :
  segment 170 7 ([], Int 520) (lit "Very unlikely", 1) =
    Ok ([ bar_rect (Int 520) 170 (Float (780 * (1 / 7))) (lit "#8b1e3f");
          label_outside_pct (Float (520 + 780 * (1 / 7) + 6)) 170
            (Float (1 / 7 * 100)) ],
        Float (520 + 780 * (1 / 7)))
  ∧ fmt_1f (Float (780 * (1 / 7))) = lit "111.4"
  ∧ fmt_1f (Float (520 + 780 * (1 / 7) + 6)) = lit "637.4"
  ∧ fmt_1f (Float (1 / 7 * 100)) = lit "14.3".
Proof. split_and!; vm_compute; reflexivity. Qed.

(** The spec's scenario: no row answers the column.  The row is drawn as
    its card and its label, with no segment. *)
Example empty_question_row (parts : list str) (label : str) :
  question_row parts (0, (label, [], 0))
  = Ok (parts ++ [card_rect 170] ++ [row_label 170 label]).
Proof. unfold question_row. simpl. by rewrite <- app_assoc. Qed.

(** C10. Every count of a summary is at least 1, so the total is 0 exactly
    when the summary is empty; the segment loop over a summary does not
    raise, and it appends nothing exactly when the total is 0. *)
Theorem summarize_counts_positive (rows : list row) (column : str)
    (ordered : counter) (total : Z) :
  summarize rows column = Ok (ordered, total) →
  Forall (λ kv, 1 ≤ kv.2) ordered
  ∧ (total = 0 ↔ ordered = [])
  ∧ ∀ y parts x,
      ∃ segs x', for_each (segment y total) ordered (parts, x)
                 = Ok (parts ++ segs, x')
                 ∧ (segs = [] ↔ total = 0).
Proof.
  intros Hs. apply summarize_positive in Hs as [Hpos Hsum].
  assert (Hzero : total = 0 ↔ ordered = []).
  { split.
    - intros ->. pose proof (sum_values_positive _ Hpos).
      destruct ordered; [done | simpl in *; lia].
    - by intros ->. }
  split_and!; [done.. |].
  intros y parts x.
  destruct (for_each_segment_succeeds y total ordered parts x)
    as (segs & x' & Hrun & Hsegs).
  { right. rewrite Forall_forall in Hpos |- *. intros kv Hkv.
    split; [by apply Hpos |]. rewrite Hsum.
    apply sum_values_bound; [| done]. by apply Forall_forall. }
  exists segs, x'. split; [done |]. by rewrite Hsegs.
Qed.

Lemma summarize_counts_positive_witness :
  Forall (λ kv : str * Z, 1 ≤ kv.2)
    [(lit "Somewhat unlikely", 1); (lit "Very likely", 2)]
  ∧ (3 = 0 ↔ [(lit "Somewhat unlikely", 1); (lit "Very likely", 2)] = [])
  ∧ ∀ y parts x,
      ∃ segs x',
        for_each (segment y 3)
          [(lit "Somewhat unlikely", 1); (lit "Very likely", 2)] (parts, x)
        = Ok (parts ++ segs, x')
        ∧ (segs = [] ↔ 3 = 0).
Proof.
  apply (summarize_counts_positive
           [q29_row "R_1" "Very likely"; q29_row "R_2" "  ";
            q29_row "R_3" " Very likely "; q29_row "R_4" "";
            q29_row "R_5" "Somewhat unlikely"]
           (lit "Q29")).
  vm_compute. reflexivity.
Defined.

(** C6, counterexample. Two, four and one answers out of seven: no width is
    below the floor of 1, the three widths the code computes are the doubles
    [780 * (2/7)], [780 * (4/7)] and [780 * (1/7)], and their sum is below
    780, both as a sum of doubles and as the exact sum of the three doubles;
    the cursor ends left of 1300. *)
Lemma proportional_widths_sum_inexact :
  summarize seven_rows (lit "Q29") = Ok (seven_summary, 7)
  ∧ mapM (λ kv, proportional_width kv.2 7) seven_summary
    = Ok [Float (780 * (2 / 7)); Float (780 * (4 / 7)); Float (780 * (1 / 7))]
  ∧ mapM (λ kv, segment_width kv.2 7) seven_summary
    = Ok [Float (780 * (2 / 7)); Float (780 * (4 / 7)); Float (780 * (1 / 7))]
  ∧ PrimFloat.ltb (780 * (2 / 7) + 780 * (4 / 7) + 780 * (1 / 7)) 780 = true
  ∧ (Qsum [float_exact (780 * (2 / 7)); float_exact (780 * (4 / 7));
           float_exact (780 * (1 / 7))]
     < inject_Z chart_width)%Q
  ∧ (λ st, num_gt (Int 1300) st.2)
      <$> for_each (segment 170 7) seven_summary ([], Int chart_left)
    = Ok true.
Proof. split_and!; vm_compute; reflexivity. Qed.

Lemma Qsum_exact_width (c : counter) (total : Z) :
  total ≠ 0 →
  (Qsum (map (λ kv, exact_width kv.2 total) c)
   == inject_Z chart_width * (inject_Z (sum_values c) / inject_Z total))%Q.
Proof.
  intros Ht.
  assert (Hq : ¬ (inject_Z total == 0)%Q).
  { unfold Qeq. simpl. lia. }
  unfold sum_values. induction c as [|[k n] c IH].
  - simpl. field. exact Hq.
  - change (exact_width n total
            + Qsum (map (λ kv, exact_width kv.2 total) c)
            == inject_Z chart_width
               * (inject_Z (n + foldr Z.add 0%Z c.*2) / inject_Z total))%Q.
    rewrite IH, inject_Z_plus. unfold exact_width. field. exact Hq.
Qed.

Lemma proportional_widths_close (c : counter) (total : Z) :
  total < 2 ^ 1000 →
  Forall (λ kv : str * Z, 0 < kv.2 ≤ total) c →
  ∃ ws : list float,
    mapM (λ kv : str * Z, proportional_width kv.2 total) c
    = Ok (Float <$> ws)
    ∧ ((1 - unit_roundoff) ^ 2
       * Qsum (map (λ kv, exact_width kv.2 total) c)
       <= Qsum (float_exact <$> ws)
       ∧ Qsum (float_exact <$> ws)
         <= (1 + unit_roundoff) ^ 2
            * Qsum (map (λ kv, exact_width kv.2 total) c))%Q.
Proof.
  intros Ht. induction 1 as [|[k n] c Hn _ (ws & Hws & IH1 & IH2)].
  - exists []. split; [done |]. cbn. split; lra.
  - destruct (proportional_width_close n total Hn Ht) as (w & Hw & H1 & H2).
    exists (w :: ws). split.
    + cbn [mapM snd]. rewrite Hw. cbn [mbind result_bind].
      rewrite Hws. done.
    + cbn [map fmap list_fmap Qsum foldr snd].
      fold (Qsum (float_exact <$> ws)).
      fold (Qsum (map (λ kv : str * Z, exact_width kv.2 total) c)).
      revert IH1 IH2 H1 H2.
      generalize (exact_width n total) (float_exact w)
        (Qsum (float_exact <$> ws))
        (Qsum (map (λ kv : str * Z, exact_width kv.2 total) c)).
      intros v x sw sv. unfold unit_roundoff.
      change (?a ^ 2)%Q with (a * a)%Q. intros. split; lra.
Qed.

(** C6, amended. For a summary with a positive total (below [2 ^ 1000]),
    the unfloored proportional widths [chart_width * (count / total)] the
    code computes are doubles whose sum, taken exactly, is the chart width
    780 up to the error of the two roundings of each width: it lies between
    [780 * (1 - 2 ^ -53) ^ 2] and [780 * (1 + 2 ^ -53) ^ 2]. *)
Theorem proportional_widths_sum (rows : list row) (column : str)
    (ordered : counter) (total : Z) :
  summarize rows column = Ok (ordered, total) →
  0 < total < 2 ^ 1000 →
  ∃ ws : list float,
    mapM (λ kv : str * Z, proportional_width kv.2 total) ordered
    = Ok (Float <$> ws)
    ∧ (inject_Z chart_width * (1 - unit_roundoff) ^ 2
       <= Qsum (float_exact <$> ws)
       ∧ Qsum (float_exact <$> ws)
         <= inject_Z chart_width * (1 + unit_roundoff) ^ 2)%Q.
Proof.
  intros Hs [Ht0 Ht].
  destruct (summarize_positive _ _ _ _ Hs) as [Hpos Hsum].
  assert (Hall : Forall (λ kv : str * Z, 0 < kv.2 ≤ total) ordered).
  { apply Forall_forall. intros [a n] Hin. cbn [snd]. split.
    - rewrite Forall_forall in Hpos. specialize (Hpos _ Hin). simpl in Hpos. lia.
    - rewrite Hsum. apply (sum_values_bound ordered (a, n) Hpos Hin). }
  destruct (proportional_widths_close ordered total Ht Hall)
    as (ws & Hws & H1 & H2).
  exists ws. split; [done |].
  assert (Hex : (Qsum (map (λ kv : str * Z, exact_width kv.2 total) ordered)
                 == inject_Z chart_width)%Q).
  { rewrite Qsum_exact_width by lia. rewrite <- Hsum. field.
    unfold Qeq. simpl. lia. }
  rewrite Hex in H1, H2. split.
  - by rewrite Qmult_comm.
  - by rewrite Qmult_comm.
Qed.

Lemma proportional_widths_sum_witness :
  ∃ ws : list float,
    mapM (λ kv : str * Z, proportional_width kv.2 7) seven_summary
    = Ok (Float <$> ws)
    ∧ (inject_Z chart_width * (1 - unit_roundoff) ^ 2
       <= Qsum (float_exact <$> ws)
       ∧ Qsum (float_exact <$> ws)
         <= inject_Z chart_width * (1 + unit_roundoff) ^ 2)%Q.
Proof.
  apply (proportional_widths_sum seven_rows (lit "Q29") seven_summary 7).
  - vm_compute. reflexivity.
  - split; [lia | done].
Defined.

(** ** [main] *)

(** The document [main] renders, before it is written. *)
Definition rendered (file : result (list row)) : result str :=
  rows ← load_rows file ;
  results ← question_results rows ;
  make_svg results (Z.of_nat (length rows)).

Lemma main_rendered (w : world) :
  main w =
    svg ← rendered (csv_file w) ;
    w' ← write_text w svg ;
    Ok (print w' (lit "Wrote " ++ OUTPUT_PATH w')).
Proof.
  unfold main, rendered.
  destruct (load_rows (csv_file w)) as [rows|e]; simpl; [| done].
  by destruct (question_results rows) as [results|e].
Qed.

(** A run that succeeds: the document is written and one line is printed. *)
Example main_writes :
  match
    main {| csv_file := Ok two_complete_rows;
            OUTPUT_PATH := lit "visuals/cpa_survey_key_findings.svg";
            output_writable := true; svg_file := None; stdout := [] |}
  with
  | Ok w' =>
      is_Some (svg_file w')
      ∧ stdout w' = [lit "Wrote visuals/cpa_survey_key_findings.svg"]
  | Raise _ => False
  end.
Proof. vm_compute. split; [by eexists | reflexivity]. Qed.

(** A run on an export without the question columns raises [KeyError] for
    the first question. *)
Example main_missing_column :
  main {| csv_file := Ok [survey_row "R_1" "2025-12-30" "True" "Q1" "Yes"];
          OUTPUT_PATH := lit "visuals/cpa_survey_key_findings.svg";
          output_writable := true; svg_file := None; stdout := [] |}
  = Raise (KeyError (lit "Q29")).
Proof. vm_compute. reflexivity. Qed.

(** Running [main] again on the world it produced writes the same document
    again. *)
Lemma main_idempotent (w w' : world) :
  main w = Ok w' →
  ∃ w'', main w' = Ok w'' ∧ svg_file w'' = svg_file w'.
Proof.
  rewrite !main_rendered.
  destruct (rendered (csv_file w)) as [svg|e] eqn:Hsvg; simpl; [| done].
  unfold write_text. destruct (output_writable w); simpl; [| done].
  intros [= <-]. simpl. rewrite Hsvg. simpl. eauto.
Qed.

(** * Further properties *)

(** ** The loader keeps the order of the file *)

(** X1. The retained rows are a subsequence of the rows read, in file order, and
    loading them again retains them all. *)
Theorem load_rows_sublist_stable (rows : list row) :
  ∃ cleaned,
    load_rows (Ok rows) = Ok cleaned
    ∧ (cleaned `sublist_of` rows)
    ∧ load_rows (Ok cleaned) = Ok cleaned.
Proof.
  exists (filter retained rows). unfold load_rows. simpl.
  rewrite !clean_filter. split_and!; [done | apply sublist_filter |].
  f_equal. induction rows as [|r rows IH]; [done |].
  rewrite filter_cons. case_decide as Hr; [| done].
  rewrite filter_cons, decide_True by done. by rewrite IH.
Qed.

(** ** The count of each answer *)

Lemma counter_incr_elem (c : counter) (x a : str) (n : Z) :
  NoDup c.*1 →
  (a, n) ∈ counter_incr c x ↔
  if decide (a = x)
  then (a, n - 1) ∈ c ∨ ((x ∉ c.*1) ∧ n = 1)
  else (a, n) ∈ c.
Proof.
  induction c as [|[k m] c IH]; intros Hnd.
  - cbn [counter_incr]. rewrite list_elem_of_singleton.
    case_decide as Hax.
    + subst. split.
      * intros [= ->]. right. split; [apply not_elem_of_nil | done].
      * intros [[]%elem_of_nil | [_ ->]]. done.
    + rewrite elem_of_nil. split; [| done]. by intros [= -> ->].
  - rewrite fmap_cons in Hnd. apply NoDup_cons in Hnd as [Hk Hnd].
    cbn [fst] in Hk. specialize (IH Hnd).
    assert (Hk' : ∀ n', (k, n') ∉ c).
    { intros n' Hin. apply Hk.
      by apply (list_elem_of_fmap_2 fst) in Hin. }
    cbn [counter_incr]. rewrite fmap_cons. cbn [fst].
    destruct (decide (k = x)) as [-> | Hkx].
    + case_decide as Hax; rewrite !elem_of_cons.
      * subst. split.
        -- intros [[= ->] | Hin]; [| by apply Hk' in Hin].
           left. left. f_equal. lia.
        -- intros [[[= Hn] | Hin] | [Hnin _]].
           ++ left. f_equal. lia.
           ++ by apply Hk' in Hin.
           ++ destruct Hnin. by left.
      * split; (intros [[= ? ?] | Hin]; [by subst | by right]).
    + rewrite elem_of_cons, IH. case_decide as Hax; rewrite ?elem_of_cons.
      * subst. split.
        -- intros [[= ? ?] | [Hin | [Hnin ->]]]; [by subst | by left; right |].
           right. split; [| done]. intros [? | ?]; by subst.
        -- intros [[[= ? ?] | Hin] | [Hnin ->]]; [by subst | by right; left |].
           right. right. split; [| done]. intros ?. apply Hnin. by right.
      * done.
Qed.

Lemma Counter_elem (l : list str) (a : str) (n : Z) :
  (a, n) ∈ Counter l ↔ a ∈ l ∧ n = Z.of_nat (length (filter (a =.) l)).
Proof.
  revert n. induction l as [|x l IH] using rev_ind; intros n.
  - unfold Counter. simpl. rewrite !elem_of_nil. tauto.
  - rewrite Counter_snoc, counter_incr_elem by apply Counter_NoDup.
    rewrite filter_app, length_app, elem_of_app, list_elem_of_singleton.
    rewrite filter_cons, filter_nil. case_decide as Hax.
    + subst. rewrite IH, Counter_keys.
      cbn [length]. split.
      * intros [[_ Hn] | [Hnin ->]]; (split; [auto |]); [lia |].
        assert (filter (x =.) l = []) as ->; [| done].
        apply elem_of_nil_inv. intros y [<- ?]%list_elem_of_filter. done.
      * intros [_ ->]. destruct (decide (x ∈ l)) as [Hin | Hnin].
        -- left. split; [done | lia].
        -- right. split; [done |].
           assert (filter (x =.) l = []) as ->; [| done].
           apply elem_of_nil_inv. intros y [<- ?]%list_elem_of_filter. done.
    + rewrite IH. cbn [length].
      split; intros [Hin ->]; (split; [| lia]); [auto |].
      by destruct Hin.
Qed.

Lemma answers_count (rows : list row) (column : str) (cells : list str)
    (a : str) :
  answers rows column = Ok cells → a ≠ [] →
  Z.of_nat (length (filter (a =.) cells)) = answer_count column a rows.
Proof.
  unfold answer_count. intros Hc Ha. f_equal. revert cells Hc.
  induction rows as [|r rows IH]; intros cells.
  - by intros [= <-].
  - intros (a' & rest & Ha' & Hrest & ->)%answers_cons_Ok.
    specialize (IH _ Hrest). rewrite (filter_cons _ r).
    destruct (decide (a' = a)) as [-> | Hne].
    + apply str_bool_true in Ha. rewrite Ha, filter_cons.
      rewrite !decide_True by done. simpl. by rewrite IH.
    + rewrite (decide_False (P := answer r column = Ok a)) by congruence.
      destruct (str_bool a'); [| done].
      rewrite filter_cons, decide_False by done. done.
Qed.


Lemma answer_count_perm (column a : str) (rows rows' : list row) :
  rows ≡ₚ rows' → answer_count column a rows = answer_count column a rows'.
Proof. unfold answer_count. by intros ->. Qed.

Lemma summarize_entries_NoDup (rows : list row) (column : str)
    (ordered : counter) (total : Z) :
  summarize rows column = Ok (ordered, total) → NoDup ordered.
Proof.
  intros Hs. apply summarize_NoDup in Hs.
  by apply (NoDup_fmap_1 fst).
Qed.

Lemma summarize_elem (rows : list row) (column : str)
    (ordered : counter) (total : Z) (a : str) (n : Z) :
  summarize rows column = Ok (ordered, total) →
  (a, n) ∈ ordered ↔ a ≠ [] ∧ n = answer_count column a rows ∧ 0 < n.
Proof.
  intros (cells & Hc & -> & _)%summarize_Ok.
  rewrite sorted_perm, Counter_elem, (answers_elem _ _ _ a Hc).
  unfold occurs. split.
  - intros [[Ha Hr] ->]. rewrite (answers_count _ _ _ _ Hc Ha).
    split_and!; [done.. |].
    destruct Hr as (r & Hr & Har). unfold answer_count.
    assert (r ∈ filter (λ r, answer r column = Ok a) rows) as Hin
      by by apply list_elem_of_filter.
    destruct (filter _ rows); [by apply elem_of_nil in Hin | simpl; lia].
  - intros (Ha & -> & Hpos). rewrite (answers_count _ _ _ _ Hc Ha).
    split_and!; [done | | done].
    unfold answer_count in Hpos.
    destruct (filter _ rows) as [|r l] eqn:Hf; [simpl in Hpos; lia |].
    assert (r ∈ filter (λ r, answer r column = Ok a) rows) as Hin
      by (rewrite Hf; apply elem_of_cons; auto).
    apply list_elem_of_filter in Hin as [? ?]. eauto.
Qed.

(** X2. Each answer is listed with the number of rows that give it: [(a, n)] is
    an entry of the summary exactly when [a] is not empty, [n] is the number
    of rows whose trimmed cell is [a], and [n] is positive. *)
Theorem summarize_counts (rows : list row) (column : str)
    (ordered : counter) (total : Z) (a : str) (n : Z) :
  summarize rows column = Ok (ordered, total) →
  (a, n) ∈ ordered ↔ a ≠ [] ∧ n = answer_count column a rows ∧ 0 < n.
Proof. apply summarize_elem. Qed.

Lemma summarize_counts_witness :
  (lit "Very likely", 2) ∈
    [(lit "Somewhat unlikely", 1); (lit "Very likely", 2)]
  ↔ lit "Very likely" ≠ []
    ∧ 2 = answer_count (lit "Q29") (lit "Very likely")
            [q29_row "R_1" "Very likely"; q29_row "R_2" "  ";
             q29_row "R_3" " Very likely "; q29_row "R_4" "";
             q29_row "R_5" "Somewhat unlikely"]
    ∧ 0 < 2.
Proof.
  apply (summarize_counts
           [q29_row "R_1" "Very likely"; q29_row "R_2" "  ";
            q29_row "R_3" " Very likely "; q29_row "R_4" "";
            q29_row "R_5" "Somewhat unlikely"]
           (lit "Q29") _ 3).
  vm_compute. reflexivity.
Defined.
(** ** The order of the rows *)

(** X3. The tallies do not depend on the order of the rows: on a reordering of
    the rows [summarize] returns the same total and the same entries, up to
    the order of entries with equal sort keys. *)
Theorem summarize_row_order (rows rows' : list row) (column : str)
    (ordered : counter) (total : Z) :
  rows ≡ₚ rows' →
  summarize rows column = Ok (ordered, total) →
  ∃ ordered',
    summarize rows' column = Ok (ordered', total) ∧ ordered ≡ₚ ordered'.
Proof.
  intros Hperm Hs.
  assert (Hok : ∃ ordered' total', summarize rows' column = Ok (ordered', total')).
  { assert (∃ cells, answers rows' column = Ok cells) as (cells & Hc).
    { apply answers_Ok_iff. rewrite <- Hperm. apply answers_Ok_iff.
      apply summarize_Ok in Hs as (cells & Hc & _). eauto. }
    do 2 eexists. apply summarize_Ok. eauto. }
  destruct Hok as (ordered' & total' & Hs').
  assert (Hp : ordered ≡ₚ ordered').
  { apply NoDup_Permutation.
    - by eapply summarize_entries_NoDup.
    - by eapply summarize_entries_NoDup.
    - intros [a n]. rewrite (summarize_elem _ _ _ _ _ _ Hs).
      rewrite (summarize_elem _ _ _ _ _ _ Hs').
      by rewrite (answer_count_perm _ _ _ _ Hperm). }
  exists ordered'. split; [| done].
  apply summarize_positive in Hs as [_ ->].
  pose proof Hs' as Hs''. apply summarize_positive in Hs'' as [_ ->].
  by rewrite (sum_values_perm _ _ Hp).
Qed.

Lemma summarize_row_order_witness :
  ∃ ordered',
    summarize
      [q29_row "R_2" "alpha"; q29_row "R_3" "Very likely";
       q29_row "R_1" "zeta"; q29_row "R_4" "zeta"]
      (lit "Q29") = Ok (ordered', 4)
    ∧ [(lit "Very likely", 1); (lit "zeta", 2); (lit "alpha", 1)] ≡ₚ ordered'.
Proof.
  apply (summarize_row_order
           [q29_row "R_1" "zeta"; q29_row "R_2" "alpha";
            q29_row "R_3" "Very likely"; q29_row "R_4" "zeta"]).
  - etrans; [apply Permutation_swap |]. apply perm_skip.
    etrans; [apply Permutation_swap |]. done.
  - vm_compute. reflexivity.
Defined.

(** X4. No count exceeds the total: every entry of a summary has a count
    between 1 and the total. *)
Theorem summarize_count_bounds (rows : list row) (column : str)
    (ordered : counter) (total : Z) (a : str) (n : Z) :
  summarize rows column = Ok (ordered, total) →
  (a, n) ∈ ordered → 1 ≤ n ≤ total.
Proof.
  intros [Hpos ->]%summarize_positive Hin. split.
  - rewrite Forall_forall in Hpos. apply (Hpos _ Hin).
  - apply (sum_values_bound ordered (a, n) Hpos Hin).
Qed.

Lemma summarize_count_bounds_witness : 1 ≤ 2 ≤ 3.
Proof.
  apply (summarize_count_bounds
           [q29_row "R_1" "Very likely"; q29_row "R_2" "  ";
            q29_row "R_3" " Very likely "; q29_row "R_4" "";
            q29_row "R_5" "Somewhat unlikely"]
           (lit "Q29")
           [(lit "Somewhat unlikely", 1); (lit "Very likely", 2)] 3
           (lit "Very likely") 2).
  - vm_compute. reflexivity.
  - set_solver.
Defined.

(** ** Trimmed answers *)

Lemma lstrip_lstrip (s : str) : lstrip (lstrip s) = lstrip s.
Proof.
  induction s as [|c s IH]; [done |]. simpl.
  destruct (is_space c) eqn:Hc; [done |]. simpl. by rewrite Hc.
Qed.

Lemma lstrip_snoc (s : str) (c : N) :
  is_space c = false → lstrip (s ++ [c]) = lstrip s ++ [c].
Proof.
  intros Hc. induction s as [|d s IH]; simpl.
  - by rewrite Hc.
  - by destruct (is_space d).
Qed.

Lemma rstrip_rstrip (s : str) : rstrip (rstrip s) = rstrip s.
Proof. unfold rstrip. by rewrite rev_involutive, lstrip_lstrip. Qed.

Lemma lstrip_rstrip (s : str) :
  lstrip s = s → lstrip (rstrip s) = rstrip s.
Proof.
  destruct s as [|c s]; [done |]. simpl.
  destruct (is_space c) eqn:Hc.
  - intros Hs. exfalso.
    assert (Hlen : ∀ t, (length (lstrip t) ≤ length t)%nat).
    { induction t as [|d t IH]; simpl; [lia |].
      destruct (is_space d); simpl; lia. }
    pose proof (Hlen s) as Hl. rewrite Hs in Hl. simpl in Hl. lia.
  - intros _. unfold rstrip. simpl. rewrite lstrip_snoc by done.
    rewrite rev_app_distr. simpl. by rewrite Hc.
Qed.

Lemma strip_strip (s : str) : strip (strip s) = strip s.
Proof.
  unfold strip. rewrite (lstrip_rstrip (lstrip s)) by apply lstrip_lstrip.
  apply rstrip_rstrip.
Qed.

(** X5. The answers listed are trimmed: no entry of a summary has leading or
    trailing whitespace, so trimming it again changes nothing. *)
Theorem summarize_answers_trimmed (rows : list row) (column : str)
    (ordered : counter) (total : Z) (a : str) :
  summarize rows column = Ok (ordered, total) →
  a ∈ ordered.*1 → strip a = a.
Proof.
  intros Hs Ha. apply (summarize_keys _ _ _ _ _ Hs) in Ha as (_ & r & _ & Hr).
  apply answer_Ok in Hr as (s & _ & ->). apply strip_strip.
Qed.

Lemma summarize_answers_trimmed_witness :
  strip (lit "Very likely") = lit "Very likely".
Proof.
  apply (summarize_answers_trimmed
           [q29_row "R_1" "Very likely"; q29_row "R_2" "  ";
            q29_row "R_3" " Very likely "; q29_row "R_4" "";
            q29_row "R_5" "Somewhat unlikely"]
           (lit "Q29")
           [(lit "Somewhat unlikely", 1); (lit "Very likely", 2)] 3).
  - vm_compute. reflexivity.
  - set_solver.
Defined.

(** ** Colours *)

(** X7. The fill of a segment is always a colour of the scale: the tone of a
    text is a rank of the table, or 2 for a text that is not in it, and the
    scale has a colour for each.  The fallback colour of the lookup is never
    used. *)
Theorem segment_color_in_scale (text : str) :
  0 ≤ default 2 (ORDER !! text) ≤ 4
  ∧ COLOR_SCALE !! default 2 (ORDER !! text) = Some (segment_color text)
  ∧ segment_color text ≠ lit "#6b778d".
Proof.
  unfold segment_color.
  destruct (ORDER !! text) as [r|] eqn:Hr; cbn [from_option id].
  - apply ORDER_range in Hr.
    assert (r = 0 ∨ r = 1 ∨ r = 2 ∨ r = 3 ∨ r = 4) as Hcases by lia.
    split; [done |].
    destruct Hcases as [-> | [-> | [-> | [-> | ->]]]];
      (split; [by vm_compute | by vm_compute]).
  - split; [lia |]. split; by vm_compute.
Qed.

(** ** The floor of the width *)

Lemma leb_of_ltb (x y : float) :
  PrimFloat.ltb x y = true → PrimFloat.leb x y = true.
Proof.
  rewrite ltb_spec, leb_spec. unfold SFltb, SFleb.
  by destruct (SFcompare _ _) as [[| |]|].
Qed.

(** X8. The floor: when the total is not 0, the width of a segment is a float
    that is at least 1. *)
Theorem segment_width_floor (count total : Z) (seg_w : num) :
  total ≠ 0 →
  segment_width count total = Ok seg_w →
  ∃ f, seg_w = Float f ∧ PrimFloat.leb 1 f = true.
Proof.
  intros Ht. unfold segment_width, proportional_width, num_truediv.
  rewrite decide_False by done.
  destruct (true_div count total) as [share|]; simpl; [| done].
  intros [= <-]. unfold py_max, num_gt. cbn [to_float].
  destruct (PrimFloat.ltb 1 _) eqn:Hlt.
  - eexists. split; [done |]. by apply leb_of_ltb.
  - by exists 1%float.
Qed.

Lemma segment_width_floor_witness :
  ∃ f, Float 1 = Float f ∧ PrimFloat.leb 1 f = true.
Proof.
  apply (segment_width_floor 1 1000 (Float 1)).
  - lia.
  - vm_compute. reflexivity.
Defined.

(** ** The renderer's exceptions *)

Lemma true_div_raises (a b : Z) (e : exn) :
  b ≠ 0 → true_div a b = Raise e → e = OverflowError.
Proof.
  intros Hb. unfold true_div. rewrite decide_False by done.
  case_decide; [done |].
  destruct (_ <=? _); [by intros [= <-] |].
  by destruct (SFdiv_core_binary _ _ _ _ _ _) as [[m ex] l].
Qed.

Lemma segment_pct_raises (count total : Z) (e : exn) :
  segment_pct count total = Raise e → e = OverflowError.
Proof.
  unfold segment_pct, num_truediv. case_decide as Ht; [done |].
  destruct (true_div count total) as [f|e'] eqn:Hd; simpl; [done |].
  intros [= <-]. by eapply true_div_raises.
Qed.

Lemma segment_width_raises (count total : Z) (e : exn) :
  segment_width count total = Raise e → e = OverflowError.
Proof.
  unfold segment_width, proportional_width, num_truediv.
  case_decide as Ht; [done |].
  destruct (true_div count total) as [f|e'] eqn:Hd; simpl; [done |].
  intros [= <-]. by eapply true_div_raises.
Qed.

Lemma segment_labels_raises (x : num) (y : Z) (seg_w pct : num) (text : str)
    (e : exn) :
  segment_labels x y seg_w pct text = Raise e → e = OverflowError.
Proof.
  unfold segment_labels. destruct (num_gt seg_w (Int 115)); [| done].
  destruct seg_w as [z|f]; unfold num_truediv.
  - destruct (true_div z 2) as [h|e'] eqn:Hd; simpl; [done |].
    intros [= <-]. by apply (true_div_raises z 2).
  - replace (PrimFloat.eqb (to_float (Int 2)) 0) with false
      by (by vm_compute).
    done.
Qed.

Lemma segment_raises (y total : Z) (st : list str * num) (entry : str * Z)
    (e : exn) :
  segment y total st entry = Raise e → e = OverflowError.
Proof.
  destruct st as [parts x], entry as [text count]. unfold segment.
  destruct (segment_pct count total) as [pct|e1] eqn:Hp; simpl.
  2: { intros [= <-]. by eapply segment_pct_raises. }
  destruct (segment_width count total) as [w|e2] eqn:Hw; simpl.
  2: { intros [= <-]. by eapply segment_width_raises. }
  destruct (segment_labels x y w pct text) as [ls|e3] eqn:Hl; simpl; [done |].
  intros [= <-]. by eapply segment_labels_raises.
Qed.

Lemma for_each_raises {A S} (body : S → A → result S) (P : exn → Prop)
    (items : list A) (s : S) (e : exn) :
  (∀ s a e, body s a = Raise e → P e) →
  for_each body items s = Raise e → P e.
Proof.
  intros Hbody. revert s. induction items as [|a items IH]; intros s.
  - done.
  - cbn [for_each]. destruct (body s a) as [s'|e'] eqn:Hb; simpl.
    + apply IH.
    + intros [= <-]. by eapply Hbody.
Qed.

Lemma question_row_raises (parts : list str)
    (item : Z * (str * counter * Z)) (e : exn) :
  question_row parts item = Raise e → e = OverflowError.
Proof.
  destruct item as [i [[label entries] total]]. unfold question_row.
  destruct (for_each _ entries _) as [[parts' x']|e'] eqn:Hf; simpl; [done |].
  intros [= <-].
  apply (for_each_raises _ (λ e, e = OverflowError) _ _ _
           (segment_raises _ _) Hf).
Qed.

(** X9. The guards leave one exception to [make_svg] when the sample size is
    within the int-to-str limit: whatever the results, it raises no
    [ZeroDivisionError]; when it raises, it is the [OverflowError] of a
    quotient too large for a float.  (Beyond the limit the header's
    replacement field raises [ValueError].) *)
Theorem make_svg_raises_overflow_only (results : list (str * counter * Z))
    (n_finished : Z) (e : exn) :
  within_str_limit n_finished →
  make_svg results n_finished = Raise e → e = OverflowError.
Proof.
  intros _. unfold make_svg.
  destruct (for_each question_row _ _) as [parts|e'] eqn:Hf; simpl; [done |].
  intros [= <-].
  apply (for_each_raises _ (λ e, e = OverflowError) _ _ _
           question_row_raises Hf).
Qed.

Lemma make_svg_raises_overflow_only_witness : OverflowError = OverflowError.
Proof.
  apply (make_svg_raises_overflow_only
           [(lit "Likelihood of pursuing CPA license",
             [(lit "Very likely", 2 ^ 1100)], 1)] 1).
  - vm_compute. reflexivity.
  - vm_compute. reflexivity.
Defined.

(** ** The cursor *)

Lemma segment_prefix (y total : Z) (parts : list str) (x : num)
    (entry : str * Z) :
  segment y total (parts, x) entry =
    (λ st, (parts ++ st.1, st.2)) <$> segment y total ([], x) entry.
Proof.
  destruct entry as [text count]. unfold segment.
  destruct (segment_pct count total) as [pct|]; simpl; [| done].
  destruct (segment_width count total) as [w|]; simpl; [| done].
  destruct (segment_labels x y w pct text) as [ls|]; simpl; [| done].
  by rewrite <- app_assoc.
Qed.

(** What the loop appends does not depend on what [parts] held before. *)
Lemma for_each_segment_prefix (y total : Z) (entries : counter)
    (parts : list str) (x : num) :
  for_each (segment y total) entries (parts, x) =
    (λ st, (parts ++ st.1, st.2))
      <$> for_each (segment y total) entries ([], x).
Proof.
  revert parts x. induction entries as [|entry entries IH]; intros parts x.
  - simpl. by rewrite app_nil_r.
  - cbn [for_each]. rewrite (segment_prefix y total parts).
    destruct (segment y total ([], x) entry) as [[segs x1]|]; simpl; [| done].
    rewrite (IH (parts ++ segs)), (IH segs).
    destruct (for_each _ entries ([], x1)) as [[segs' x2]|]; simpl; [| done].
    by rewrite app_assoc.
Qed.

Lemma for_each_segment_Ok_prefix (y total : Z) (entries : counter)
    (parts parts' : list str) (x x' : num) :
  for_each (segment y total) entries (parts, x) = Ok (parts', x') ↔
  ∃ segs, for_each (segment y total) entries ([], x) = Ok (segs, x')
          ∧ parts' = parts ++ segs.
Proof.
  rewrite for_each_segment_prefix.
  destruct (for_each _ entries ([], x)) as [[segs x1]|]; simpl; split.
  - intros [= <- <-]. eauto.
  - by intros (segs' & [= <- <-] & ->).
  - done.
  - by intros (? & [=] & _).
Qed.

(** X10. The segments of a row tile it: the loop draws one bar per entry, in the
    order of the entries, the first at the cursor's start and each other one
    where the one before it ends; the cursor ends where the last bar
    ends. *)
Theorem segments_tile (y total : Z) (entries : counter) (parts : list str)
    (x : num) (parts' : list str) (x' : num) :
  for_each (segment y total) entries (parts, x) = Ok (parts', x') →
  ∃ ds, Forall2 (draws y total) entries ds
        ∧ tiled x ds x'
        ∧ parts' = parts ++ concat (drawn_parts y <$> ds).
Proof.
  revert parts x. induction entries as [|[text count] entries IH];
    intros parts x.
  - intros [= <- <-]. exists []. split_and!; [constructor | done |].
    simpl. by rewrite app_nil_r.
  - cbn [for_each]. intros ([parts1 x1] & Hseg & Hrest)%bind_Ok.
    apply segment_Ok_inv in Hseg
      as (pct & seg_w & labels & Hpct & Hw & Hl & -> & ->).
    apply IH in Hrest as (ds & Hds & Htiled & ->).
    exists (Drawn x seg_w text labels :: ds). split_and!.
    + constructor; [| done]. split_and!; [done | done |]. by exists pct.
    + done.
    + rewrite fmap_cons. simpl. by rewrite <- app_assoc.
Qed.

Lemma segments_tile_witness :
  ∃ ds, Forall2 (draws 170 7) seven_summary ds
        ∧ tiled (Int 520) ds
            (num_add (num_add (num_add (Int 520) (Float (780 * (2 / 7))))
               (Float (780 * (4 / 7)))) (Float (780 * (1 / 7))))
        ∧ [ bar_rect (Int 520) 170 (Float (780 * (2 / 7))) (lit "#8b1e3f");
            label_inside_text (Float (520 + 780 * (2 / 7) / 2)) 170
              (lit "Very unlikely");
            label_inside_pct (Float (520 + 780 * (2 / 7) / 2)) 170
              (Float (2 / 7 * 100));
            bar_rect (Float (520 + 780 * (2 / 7))) 170
              (Float (780 * (4 / 7))) (lit "#d8576b");
            label_inside_text
              (Float (520 + 780 * (2 / 7) + 780 * (4 / 7) / 2)) 170
              (lit "Somewhat unlikely");
            label_inside_pct
              (Float (520 + 780 * (2 / 7) + 780 * (4 / 7) / 2)) 170
              (Float (4 / 7 * 100));
            bar_rect (Float (520 + 780 * (2 / 7) + 780 * (4 / 7))) 170
              (Float (780 * (1 / 7))) (lit "#b0b7c3");
            label_outside_pct
              (Float (520 + 780 * (2 / 7) + 780 * (4 / 7)
                      + 780 * (1 / 7) + 6)) 170
              (Float (1 / 7 * 100)) ]
          = [] ++ concat (drawn_parts 170 <$> ds).
Proof.
  apply (segments_tile 170 7 seven_summary [] (Int 520)).
  vm_compute. reflexivity.
Defined.

(** ** The document *)

Lemma question_row_Ok (parts : list str) (i : nat)
    (res : str * counter * Z) (parts' : list str) :
  question_row parts (Z.of_nat i, res) = Ok parts' ↔
  ∃ segs, row_drawn i res segs ∧ parts' = parts ++ row_parts i res.1.1 segs.
Proof.
  destruct res as [[label entries] total]. unfold question_row, row_drawn.
  fold (row_y i). cbn [fst snd]. rewrite bind_Ok. split.
  - intros ([parts1 x'] & (segs & Hrun & ->)%for_each_segment_Ok_prefix
            & [= <-]).
    exists segs. split; [by exists x' |].
    unfold row_parts. by rewrite <- !app_assoc.
  - intros (segs & [x' Hrun] & ->).
    exists ((parts ++ [card_rect (row_y i)]) ++ [row_label (row_y i) label]
            ++ segs, x').
    split.
    + apply for_each_segment_Ok_prefix. exists segs. split; [done |].
      by rewrite <- !app_assoc.
    + unfold row_parts. by rewrite <- !app_assoc.
Qed.

Lemma question_rows_Ok (k : nat) (results : list (str * counter * Z))
    (parts parts' : list str) :
  for_each question_row (imap (λ i res, (Z.of_nat (k + i), res)) results)
    parts = Ok parts' ↔
  ∃ segss, rows_drawn k results segss
           ∧ parts' = parts ++ rows_parts k results segss.
Proof.
  revert k parts. induction results as [|res results IH]; intros k parts.
  - simpl. split.
    + intros [= <-]. exists []. by rewrite app_nil_r.
    + intros ([|??] & Hd & ->); [| done]. simpl. by rewrite app_nil_r.
  - rewrite imap_cons. cbn [for_each]. rewrite Nat.add_0_r, bind_Ok.
    assert (Hext : imap ((λ i res, (Z.of_nat (k + i), res)) ∘ S) results
                   = imap (λ i res, (Z.of_nat (S k + i), res)) results).
    { apply imap_ext. intros i x _. simpl. do 2 f_equal. lia. }
    rewrite Hext. split.
    + intros (parts1 & (segs & Hrow & ->)%question_row_Ok
              & (segss & Hrows & ->)%IH).
      exists (segs :: segss). split; [done |]. simpl. by rewrite <- app_assoc.
    + intros ([|segs segss] & Hd & ->); [done |]. destruct Hd as [Hrow Hrows].
      exists (parts ++ row_parts k res.1.1 segs). split.
      * apply question_row_Ok. eauto.
      * apply IH. exists segss. split; [done |]. simpl. by rewrite <- app_assoc.
Qed.

Lemma make_svg_Ok (results : list (str * counter * Z)) (n_finished : Z)
    (svg : str) :
  make_svg results n_finished = Ok svg ↔
  ∃ segss,
    rows_drawn 0 results segss
    ∧ svg = join newline
              (header n_finished ++ rows_parts 0 results segss ++ footer).
Proof.
  unfold make_svg, enumerate. rewrite bind_Ok.
  change (imap (λ i a, (Z.of_nat i, a)) results)
    with (imap (λ i res, (Z.of_nat (0 + i), res)) results).
  split.
  - intros (parts & (segss & Hrows & ->)%question_rows_Ok & Heq).
    exists segss. split; [done |]. rewrite app_assoc. congruence.
  - intros (segss & Hrows & ->).
    exists (header n_finished ++ rows_parts 0 results segss). split.
    + apply question_rows_Ok. eauto.
    + by rewrite <- app_assoc.
Qed.

(** X11. For a sample size within the int-to-str limit, the document is the
    header with the sample size, then for each result in order its card, its
    label and the segments the loop draws for it, then the footer, joined by
    line feeds; [make_svg] returns exactly when the segment loop succeeds on
    every result. *)
Theorem make_svg_document (results : list (str * counter * Z))
    (n_finished : Z) (svg : str) :
  within_str_limit n_finished →
  make_svg results n_finished = Ok svg ↔
  ∃ segss,
    rows_drawn 0 results segss
    ∧ svg = join newline
              (header n_finished ++ rows_parts 0 results segss ++ footer).
Proof. intros _. apply make_svg_Ok. Qed.

Lemma make_svg_document_witness :
  make_svg [(lit "Overall perception of CPA pathway change", [], 0)] 8
  = Ok (join newline
          (header 8
           ++ [card_rect 170;
               row_label 170 (lit "Overall perception of CPA pathway change")]
           ++ footer)) ↔
  ∃ segss,
    rows_drawn 0 [(lit "Overall perception of CPA pathway change", [], 0)]
      segss
    ∧ join newline
        (header 8
         ++ [card_rect 170;
             row_label 170 (lit "Overall perception of CPA pathway change")]
         ++ footer)
      = join newline
          (header 8
           ++ rows_parts 0
                [(lit "Overall perception of CPA pathway change", [], 0)]
                segss
           ++ footer).
Proof.
  apply (make_svg_document
           [(lit "Overall perception of CPA pathway change", [], 0)] 8).
  vm_compute. reflexivity.
Defined.

Lemma rows_drawn_exists (k : nat) (results : list (str * counter * Z)) :
  Forall well_formed results → ∃ segss, rows_drawn k results segss.
Proof.
  intros Hwf. revert k. induction Hwf as [|res results Hres _ IH]; intros k.
  - by exists [].
  - destruct (IH (S k)) as (segss & Hrows).
    destruct res as [[label entries] total].
    destruct (for_each_segment_succeeds (row_y k) total entries []
                (Int chart_left)) as (segs & x' & Hrun & _); [exact Hres |].
    exists (segs :: segss). split; [| done]. by exists x'.
Qed.

(** X12. For a sample size within the int-to-str limit, [make_svg] returns a
    document for every list of results whose counts lie between 1 and their
    total (or whose total is 0), whatever their number and their labels. *)
Theorem make_svg_succeeds (results : list (str * counter * Z))
    (n_finished : Z) :
  within_str_limit n_finished →
  Forall well_formed results →
  ∃ svg, make_svg results n_finished = Ok svg.
Proof.
  intros _ (segss & Hrows)%(rows_drawn_exists 0).
  eexists. apply make_svg_Ok. eauto.
Qed.

Lemma make_svg_succeeds_witness :
  ∃ svg,
    make_svg
      [ (lit "Likelihood of pursuing CPA license", seven_summary, 7);
        (lit "Overall perception of CPA pathway change", [], 0) ] 7
    = Ok svg.
Proof.
  apply make_svg_succeeds.
  - vm_compute. reflexivity.
  - repeat constructor; simpl; lia.
Defined.

(** ** The pipeline *)

Lemma mapM_Ok {A B} (f : A → result B) (l : list A) (k : list B) :
  mapM f l = Ok k ↔ Forall2 (λ a b, f a = Ok b) l k.
Proof.
  revert k. induction l as [|a l IH]; intros k.
  - simpl. split.
    + intros [= <-]. constructor.
    + by intros ->%Forall2_nil_inv_l.
  - cbn [mapM]. rewrite bind_Ok. split.
    + intros (b & Hb & (k' & Hk' & [= <-])%bind_Ok).
      constructor; [done | by apply IH].
    + intros (b & k' & Hb & Hk' & ->)%Forall2_cons_inv_l.
      exists b. split; [done |]. apply bind_Ok. exists k'.
      split; [by apply IH | done].
Qed.

Lemma summary_of_iff (rows : list row) (question : str * str)
    (res : str * counter * Z) :
  summary_of rows question res ↔
  (let '(col, label) := question in
   '(entries, total) ← summarize rows col ;
   Ok (label, entries, total)) = Ok res.
Proof.
  destruct question as [col label], res as [[label' entries] total].
  unfold summary_of. simpl.
  destruct (summarize rows col) as [[entries' total']|]; simpl; split.
  - by intros [-> [= -> ->]].
  - by intros [= <- <- <-].
  - by intros [_ [=]].
  - done.
Qed.

Lemma question_results_Ok (rows : list row)
    (results : list (str * counter * Z)) :
  question_results rows = Ok results ↔
  Forall2 (summary_of rows) QUESTIONS results.
Proof.
  unfold question_results. rewrite mapM_Ok.
  split; intros H; (eapply Forall2_impl; [exact H |]);
    intros q res Hq; by apply summary_of_iff.
Qed.





Lemma rendered_Ok (file : result (list row)) (svg : str) :
  rendered file = Ok svg ↔
  ∃ rows results segss,
    file = Ok rows
    ∧ Forall2 (summary_of (filter retained rows)) QUESTIONS results
    ∧ rows_drawn 0 results segss
    ∧ svg = join newline
              (header (Z.of_nat (length (filter retained rows)))
               ++ rows_parts 0 results segss ++ footer).
Proof.
  unfold rendered, load_rows. destruct file as [rows|e]; simpl.
  - rewrite clean_filter, bind_Ok. split.
    + intros (results & Hq%question_results_Ok
              & (segss & Hrows & ->)%make_svg_Ok).
      by exists rows, results, segss.
    + intros (rows' & results & segss & [= <-] & Hq & Hrows & ->).
      exists results. split; [by apply question_results_Ok |].
      apply make_svg_Ok. eauto.
  - split; [done |]. by intros (? & ? & ? & [=] & _).
Qed.



(** X14. What a successful run leaves: the output file holds the document made
    of the header showing the number of retained rows, the five question
    rows in the order of [QUESTIONS], each the summary of its column over the
    retained rows, and the footer; one line naming the output path is
    printed. *)
Theorem main_document (w w' : world) :
  main w = Ok w' →
  ∃ rows results segss,
    csv_file w = Ok rows
    ∧ Forall2 (summary_of (filter retained rows)) QUESTIONS results
    ∧ rows_drawn 0 results segss
    ∧ svg_file w'
      = Some (join newline
                (header (Z.of_nat (length (filter retained rows)))
                 ++ rows_parts 0 results segss ++ footer))
    ∧ stdout w' = stdout w ++ [lit "Wrote " ++ OUTPUT_PATH w].
Proof.
  rewrite main_rendered.
  destruct (rendered (csv_file w)) as [svg|] eqn:Hsvg; simpl; [| done].
  apply rendered_Ok in Hsvg as (rows & results & segss & Hcsv & Hq & Hrows & ->).
  unfold write_text. destruct (output_writable w); simpl; [| done].
  intros [= <-]. exists rows, results, segss. by split_and!.
Qed.

Lemma main_document_witness :
  ∃ rows results segss,
    csv_file sample_world = Ok rows
    ∧ Forall2 (summary_of (filter retained rows)) QUESTIONS results
    ∧ rows_drawn 0 results segss
    ∧ svg_file sample_world_after
      = Some (join newline
                (header (Z.of_nat (length (filter retained rows)))
                 ++ rows_parts 0 results segss ++ footer))
    ∧ stdout sample_world_after
      = stdout sample_world ++ [lit "Wrote " ++ OUTPUT_PATH sample_world].
Proof.
  apply (main_document sample_world sample_world_after).
  vm_compute. reflexivity.
Defined.

(** ** The exceptions of [summarize] *)

Lemma answer_Raise (r : row) (column : str) (e : exn) :
  answer r column = Raise e ↔
  (r !! column = None ∧ e = KeyError column)
  ∨ (r !! column = Some CNone ∧ e = AttributeError).
Proof.
  unfold answer, row_item.
  destruct (r !! column) as [[|s]|]; simpl; split.
  - intros [= <-]. auto.
  - by intros [[[=] _] | [_ ->]].
  - done.
  - by intros [[[=] _] | [[=] _]].
  - intros [= <-]. auto.
  - by intros [[_ ->] | [[=] _]].
Qed.

Lemma answers_cons_Raise (r : row) (rows : list row) (column : str)
    (e : exn) :
  answers (r :: rows) column = Raise e ↔
  answer r column = Raise e
  ∨ ∃ a, answer r column = Ok a ∧ answers rows column = Raise e.
Proof.
  cbn [answers]. destruct (answer r column) as [a|e1]; simpl.
  - destruct (answers rows column) as [cells|e2]; simpl; split.
    + done.
    + by intros [[=] | (a' & _ & [=])].
    + intros [= <-]. right. by exists a.
    + by intros [[=] | (a' & _ & [= <-])].
  - split.
    + intros [= <-]. by left.
    + by intros [[= <-] | (a' & [=] & _)].
Qed.

Lemma answers_Raise (rows : list row) (column : str) (e : exn) :
  answers rows column = Raise e ↔
  ∃ rows1 r rows2,
    rows = rows1 ++ r :: rows2
    ∧ Forall (has_text column) rows1
    ∧ answer r column = Raise e.
Proof.
  split.
  - induction rows as [|r rows IH]; [done |].
    intros [Hr | (a & Ha & Hrest)]%answers_cons_Raise.
    + exists [], r, rows. split_and!; [done | constructor | done].
    + destruct (IH Hrest) as (rows1 & r' & rows2 & -> & Hall & Hraise).
      exists (r :: rows1), r', rows2. split_and!; [done | | done].
      constructor; [| done].
      apply answer_Ok in Ha as (s & Hs & _). by exists s.
  - intros (rows1 & r & rows2 & -> & Hall & Hraise).
    induction Hall as [|r0 rows1 (s & Hs) _ IH].
    + apply answers_cons_Raise. by left.
    + rewrite <- app_comm_cons. apply answers_cons_Raise. right.
      exists (strip s). split; [| done]. apply answer_Ok. eauto.
Qed.

(** X6. The exception of [summarize] is the one of the first row that holds no
    string under the column: [KeyError] for the column when that row lacks
    it, [AttributeError] when its cell is [None]. *)
Theorem summarize_raises_iff (rows : list row) (column : str) (e : exn) :
  summarize rows column = Raise e ↔
  ∃ rows1 r rows2,
    rows = rows1 ++ r :: rows2
    ∧ Forall (has_text column) rows1
    ∧ ((r !! column = None ∧ e = KeyError column)
       ∨ (r !! column = Some CNone ∧ e = AttributeError)).
Proof.
  assert (Hs : summarize rows column = Raise e ↔ answers rows column = Raise e).
  { unfold summarize. destruct (answers rows column); simpl.
    - split; discriminate.
    - split; by intros [= <-]. }
  rewrite Hs, answers_Raise.
  split; intros (rows1 & r & rows2 & ? & ? & ?);
    exists rows1, r, rows2; (split_and!; [done | done |]);
    by apply answer_Raise.
Qed.
